(** * Portfolio enhancements (script.js): a shallow embedding and its properties

    The script is a collection of independent immediately-invoked features,
    each owning a small part of the page.  Every feature is embedded in a
    module of its own, over the slice of the browser state that the feature
    reads and writes.  JavaScript strings are sequences of UTF-16 code units;
    the results of selector queries that the script only consumes are part of
    the page slices the embedded functions receive.

    The features no property below is about (the injected reveal style
    sheet, the lazy-loading pass, the outbound-link log) are left out, and so
    are the inline styles and labels of created elements that nothing reads
    again.

    Part I holds the definitions, Part II the properties. *)

From Stdlib Require Import ZArith NArith List String Ascii QArith Lia Bool.
From stdpp Require Import base gmap list strings.
Import ListNotations.

(** * Part I: the embedding *)

(** ** JavaScript values shared by the features *)

Module JS.

(** A string value: its UTF-16 code units. *)
Abbreviation jsstring := (list N).

(** An ASCII literal as a JavaScript string. *)
Definition js (s : string) : jsstring :=
  map N_of_ascii (list_ascii_of_string s).

(** WhiteSpace and LineTerminator code points, the ones
    [String.prototype.trim] removes. *)
Definition is_ws (c : N) : bool :=
  ((9 <=? c) && (c <=? 13) || (c =? 32) || (c =? 160) || (c =? 5760)
   || (8192 <=? c) && (c <=? 8202) || (c =? 8232) || (c =? 8233)
   || (c =? 8239) || (c =? 8287) || (c =? 12288) || (c =? 65279))%N.

Fixpoint trimStart (s : jsstring) : jsstring :=
  match s with
  | c :: r => if is_ws c then trimStart r else s
  | [] => []
  end.

Definition trimEnd (s : jsstring) : jsstring := rev (trimStart (rev s)).

Definition trim (s : jsstring) : jsstring := trimEnd (trimStart s).

(** [s.charAt(i)]: a one-unit string, or the empty string out of range. *)
Definition charAt (s : jsstring) (i : nat) : jsstring :=
  match s !! i with
  | Some c => [c]
  | None => []
  end.

(** Truthiness of a string: only the empty string is falsy. *)
Definition truthy (s : jsstring) : bool :=
  match s with
  | [] => false
  | _ :: _ => true
  end.

(** [s || d] where [s] may be undefined or null. *)
Definition or_else (s : option jsstring) (d : jsstring) : jsstring :=
  match s with
  | Some v => if truthy v then v else d
  | None => d
  end.

(** Strict equality of two strings. *)
Fixpoint eqb (a b : jsstring) : bool :=
  match a, b with
  | [], [] => true
  | x :: a', y :: b' => (x =? y)%N && eqb a' b'
  | _, _ => false
  end.

(** [s.split(sep)] for a separator of one code unit. *)
Fixpoint split (sep : N) (s : jsstring) : list jsstring :=
  match s with
  | [] => [[]]
  | c :: r =>
      if (c =? sep)%N then [] :: split sep r
      else match split sep r with
           | h :: t => (c :: h) :: t
           | [] => [[c]]
           end
  end.

(** [parts.join(sep)] for a separator of one code unit: the operation that
    [split] undoes, used to say what the pieces of a string are. *)
Definition join (sep : N) (parts : list jsstring) : jsstring :=
  match parts with
  | [] => []
  | first :: rest => first ++ flat_map (fun part => sep :: part) rest
  end.

(** The delay [setTimeout] waits for an integer argument: the argument is
    taken as a 32-bit signed integer (modulo 2^32), and a negative delay
    counts as 0. *)
Definition timeout_delay (d : Z) : Z :=
  Z.max 0 ((d + 2147483648) mod 4294967296 - 2147483648).

(** [arr.includes(x)] over strings. *)
Definition includes (x : jsstring) (arr : list jsstring) : bool :=
  existsb (eqb x) arr.

(** The rest of [s] after the prefix [pat], when [s] starts with it. *)
Fixpoint strip_prefix (pat s : jsstring) : option jsstring :=
  match pat, s with
  | [], _ => Some s
  | p :: pat', c :: s' => if (p =? c)%N then strip_prefix pat' s' else None
  | _ :: _, [] => None
  end.

(** [s.replace(pat, rep)] with a string pattern: the first occurrence only. *)
Fixpoint replace (pat rep s : jsstring) : jsstring :=
  match strip_prefix pat s with
  | Some rest => rep ++ rest
  | None =>
      match s with
      | [] => []
      | c :: r => c :: replace pat rep r
      end
  end.

(** [toLowerCase] on the strings whose letters are ASCII: what the host
    function does there. *)
Definition lower_ascii (s : jsstring) : jsstring :=
  map (fun c => if ((65 <=? c) && (c <=? 90))%N then (c + 32)%N else c) s.

(** [Object.assign(target, props)] on an object used as a string map. *)
Definition object_assign (target : gmap string jsstring)
    (props : list (string * jsstring)) : gmap string jsstring :=
  fold_left (fun m kv => <[fst kv := snd kv]> m) props target.

(** How a call ends: normally, or by an exception thrown in the state
    reached so far. *)
Inductive completion (A : Type) :=
| Normal (a : A)
| Throw (err : string) (a : A).

End JS.

Import JS.
Arguments js s%_string.
Arguments Normal {A} a.
Arguments Throw {A} err%_string a.

(** ** Smooth scroll for hash links *)

Module SmoothScroll.

(** What [document.querySelector] answers to a selector string. *)
Inductive lookup :=
| Found (target : nat)
| NotFound
| SyntaxError.

(** The part of the browser a click on a hash link can reach: the event's
    cancelled flag, the elements scrolled into view, the entries pushed on
    the session history (the last one is the visible fragment) and the
    selectors handed to the document. *)
Record effects := {
  defaultPrevented : bool;
  scrolledIntoView : list nat;
  history : list jsstring;
  queried : list jsstring
}.

Definition untouched : effects :=
  {| defaultPrevented := false; scrolledIntoView := []; history := [];
     queried := [] |}.

Section Handler.

Variable querySelector : jsstring -> lookup.

(** The click listener of one link; [href] is what
    [link.getAttribute("href")] returns. *)
Definition onClick (href : option jsstring) (w : effects)
    : completion effects :=
  match href with
  | None => Throw "TypeError" w
  | Some targetId =>
      if Nat.ltb 1 (length targetId) then
        let w1 := {| defaultPrevented := defaultPrevented w;
                     scrolledIntoView := scrolledIntoView w;
                     history := history w;
                     queried := queried w ++ [targetId] |} in
        match querySelector targetId with
        | Found target =>
            Normal {| defaultPrevented := true;
                      scrolledIntoView := scrolledIntoView w1 ++ [target];
                      history := history w1 ++ [targetId];
                      queried := queried w1 |}
        | NotFound => Normal w1
        | SyntaxError => Throw "SyntaxError" w1
        end
      else Normal w
  end.

End Handler.

(** The position of the first element with the id [name]. *)
Fixpoint index_of (name : jsstring) (ids : list jsstring) : option nat :=
  match ids with
  | [] => None
  | id :: rest => if eqb name id then Some 0 else S <$> index_of name rest
  end.

Definition is_digit (c : N) : bool := ((48 <=? c) && (c <=? 57))%N.

(** The code units that may start a CSS identifier without an escape:
    letters, the underscore and everything beyond ASCII. *)
Definition is_name_start (c : N) : bool :=
  ((65 <=? c) && (c <=? 90) || (97 <=? c) && (c <=? 122) || (c =? 95)
   || (128 <=? c))%N.

(** The code units that may follow: these, the digits and the hyphen. *)
Definition is_name (c : N) : bool :=
  is_name_start c || is_digit c || (c =? 45)%N.

(** An identifier written without escapes and without a leading hyphen. *)
Definition is_ident (name : jsstring) : bool :=
  match name with
  | c :: rest => is_name_start c && forallb is_name rest
  | [] => false
  end.

(** [document.querySelector] of a document whose elements carry the ids
    [ids], in document order.  The selector is parsed as CSS: "#" followed
    by an identifier selects the first element with that id; the bare "#"
    and "#" followed by a digit are no selectors at all, whatever comes
    after the digit, and the call throws.  What the document answers to
    every other selector (classes, combinators, escapes, ...) is [other]. *)
Definition by_id (ids : list jsstring) (other : jsstring -> lookup)
    (selector : jsstring) : lookup :=
  match selector with
  | 35%N :: [] => SyntaxError
  | 35%N :: c :: rest =>
      if is_digit c then SyntaxError
      else if is_ident (c :: rest) then
        match index_of (c :: rest) ids with
        | Some k => Found k
        | None => NotFound
        end
      else other selector
  | _ => other selector
  end.

(** The state a completion leaves behind. *)
Definition outcome (c : completion effects) : effects :=
  match c with
  | Normal w => w
  | Throw _ w => w
  end.

End SmoothScroll.

(** ** Reveal-on-scroll *)

Module Reveal.

(** An [IntersectionObserverEntry], as far as the callback reads it. *)
Record entry := { target : nat; isIntersecting : bool }.

(** The class lists of the elements, the targets the observer watches, and
    the threshold of the observer once it is constructed. *)
Record page := {
  classes : gmap nat (gset jsstring);
  observed : gset nat;
  observer : option Q
}.

Definition threshold : Q := 15 # 100.

Definition classList (el : nat) (p : page) : gset jsstring :=
  default ∅ (classes p !! el).

Definition classList_add (el : nat) (token : jsstring) (p : page) : page :=
  {| classes := <[el := {[token]} ∪ classList el p]> (classes p);
     observed := observed p; observer := observer p |}.

Definition observe (el : nat) (p : page) : page :=
  {| classes := classes p; observed := {[el]} ∪ observed p;
     observer := observer p |}.

Definition unobserve (el : nat) (p : page) : page :=
  {| classes := classes p; observed := observed p ∖ {[el]};
     observer := observer p |}.

Definition reveal_in : jsstring := js "reveal-in".

(** The body of the observer callback for one entry. *)
Definition handle (p : page) (e : entry) : page :=
  if isIntersecting e
  then unobserve (target e) (classList_add (target e) reveal_in p)
  else p.

(** The observer callback on one batch of entries. *)
Definition callback (entries : list entry) (p : page) : page :=
  fold_left handle entries p.

(** The set-up: [hasIO] is ["IntersectionObserver" in window],
    [revealTargets] the elements the selector list matches. *)
Definition reveal (hasIO : bool) (revealTargets : list nat) (p : page)
    : page :=
  if hasIO && Nat.ltb 0 (length revealTargets) then
    fold_left
      (fun p el => observe el (classList_add el (js "reveal") p))
      revealTargets
      {| classes := classes p; observed := observed p;
         observer := Some threshold |}
  else p.

(** The callback run on successive batches. *)
Definition deliver (batches : list (list entry)) (p : page) : page :=
  fold_left (fun p entries => callback entries p) batches p.

(** A page whose elements carry no class yet. *)
Definition blank : page :=
  {| classes := ∅; observed := ∅; observer := None |}.

End Reveal.

(** ** Typing effect (header subtitle) *)

Module Typing.

(** A child of the subtitle element: a text node, some other element with
    the text it holds, or the reference to the one cursor [<span>] that
    [typingEffect] creates.  The span is a single object; the element only
    refers to it. *)
Inductive child :=
| Text (data : jsstring)
| Element (text : jsstring)
| CursorRef.

Record span := {
  span_text : jsstring;
  aria_hidden : jsstring;
  marginLeft : jsstring;
  opacity : jsstring
}.

(** The variables the closure [typeNext] captures. *)
Record closure := {
  full : jsstring;
  i : nat;
  cursor : span
}.

(** The page slice: the children of the first [header p] ([None] when the
    page has no such element), the closure once the effect runs, and the
    numbers of [setTimeout] and [setInterval] calls made. *)
Record page := {
  el : option (list child);
  vars : option closure;
  timeouts : nat;
  intervals : nat
}.

(** U+258B, the cursor glyph. *)
Definition glyph : jsstring := [9611%N].

Definition child_text (cur : option span) (c : child) : jsstring :=
  match c with
  | Text d => d
  | Element t => t
  | CursorRef =>
      match cur with
      | Some s => span_text s
      | None => []
      end
  end.

(** The getter [el.textContent]: the text of every descendant in order, the
    cursor span's included while it is attached. *)
Definition textContent (cur : option span) (children : list child)
    : jsstring :=
  flat_map (child_text cur) children.

(** The setter [el.textContent = s]: every child is removed, and a single
    text node takes their place unless [s] is empty. *)
Definition set_textContent (s : jsstring) : list child :=
  match s with
  | [] => []
  | _ :: _ => [Text s]
  end.

Definition is_cursor (c : child) : bool :=
  match c with
  | CursorRef => true
  | _ => false
  end.

(** [el.appendChild(cursor)]: the span becomes the last child, leaving its
    former place if it was attached. *)
Definition appendChild_cursor (children : list child) : list child :=
  List.filter (fun c => negb (is_cursor c)) children ++ [CursorRef].

Definition createCursor : span :=
  {| span_text := glyph; aria_hidden := js "true"; marginLeft := js "2px";
     opacity := [] |}.

(** One call of [typeNext]. *)
Definition typeNext (p : page) : page :=
  match el p, vars p with
  | Some children, Some v =>
      if Nat.ltb (i v) (length (full v)) then
        let text := textContent (Some (cursor v)) children
                    ++ charAt (full v) (i v) in
        {| el := Some (appendChild_cursor (set_textContent text));
           vars := Some {| full := full v; i := S (i v);
                           cursor := cursor v |};
           timeouts := S (timeouts p);
           intervals := intervals p |}
      else
        {| el := el p; vars := vars p; timeouts := timeouts p;
           intervals := S (intervals p) |}
  | _, _ => p
  end.

(** The interval callback: the cursor's opacity flips between "0" and "1". *)
Definition blink (p : page) : page :=
  match vars p with
  | Some v =>
      {| el := el p;
         vars := Some {| full := full v; i := i v;
                         cursor :=
                           {| span_text := span_text (cursor v);
                              aria_hidden := aria_hidden (cursor v);
                              marginLeft := marginLeft (cursor v);
                              opacity := if eqb (opacity (cursor v)) (js "0")
                                         then js "1" else js "0" |} |};
         timeouts := timeouts p; intervals := intervals p |}
  | None => p
  end.

(** The body of [typingEffect] up to the first call of [typeNext]: the text
    is captured and trimmed, the element emptied, the cursor created. *)
Definition prepare (children : list child) (p : page) : page :=
  {| el := Some (set_textContent []);
     vars := Some {| full := trim (textContent None children); i := 0;
                     cursor := createCursor |};
     timeouts := timeouts p; intervals := intervals p |}.

Definition typingEffect (p : page) : completion page :=
  match el p with
  | None => Normal p
  | Some children => Normal (typeNext (prepare children p))
  end.

(** The page after [n] calls of [typeNext]: the one [typingEffect] makes
    and the ones the timeouts chain. *)
Definition ticks (n : nat) (children : list child) (p : page) : page :=
  Nat.iter n typeNext (prepare children p).

(** What the element shows. *)
Definition rendered (p : page) : jsstring :=
  match el p with
  | Some children => textContent (cursor <$> vars p) children
  | None => []
  end.

(** How many source characters have been revealed. *)
Definition revealed (p : page) : nat :=
  match vars p with
  | Some v => i v
  | None => 0
  end.

(** A page on which the effect has not run, with the given subtitle. *)
Definition idle (subtitle : option (list child)) : page :=
  {| el := subtitle; vars := None; timeouts := 0; intervals := 0 |}.

(** A text with the cursor glyph after each of its characters. *)
Definition interleaved (s : jsstring) : jsstring :=
  flat_map (fun c => c :: glyph) s.

(** [cursor.style.opacity], once the cursor exists. *)
Definition cursor_opacity (p : page) : option jsstring :=
  (fun v => opacity (cursor v)) <$> vars p.

(** [k] runs of the interval callback. *)
Definition blinks (k : nat) (p : page) : page := Nat.iter k blink p.

End Typing.

(** ** Back-to-top button *)

Module BackToTop.

Record button := { style : gmap string jsstring }.

(** The button as [backToTopButton] creates it. *)
Definition backToTopButton : button :=
  {| style :=
       object_assign ∅
         [("position", js "fixed"); ("right", js "16px");
          ("bottom", js "16px"); ("width", js "40px");
          ("height", js "40px"); ("borderRadius", js "50%");
          ("border", js "none");
          ("boxShadow", js "0 4px 12px rgba(0,0,0,.15)");
          ("cursor", js "pointer"); ("fontSize", js "18px");
          ("display", js "none"); ("zIndex", js "9999");
          ("background", js "#1e1e2f"); ("color", js "#fff")] |}.

(** [a > b] on numbers. *)
Definition gt (a b : Q) : bool := negb (Qle_bool a b).

(** The scroll listener, [scrollY] being [window.scrollY] when it runs. *)
Definition onScroll (scrollY : Q) (btn : button) : button :=
  {| style := <["display" := if gt scrollY 300 then js "grid" else js "none"]>
                (style btn) |}.

(** The listener run on successive scroll events. *)
Definition scrolls (positions : list Q) (btn : button) : button :=
  fold_left (fun b y => onScroll y b) positions btn.

Definition display (btn : button) : option jsstring := style btn !! "display".

Definition shown (btn : button) : Prop := display btn = Some (js "grid").

Definition hidden (btn : button) : Prop := display btn = Some (js "none").

End BackToTop.

(** ** Theme toggle *)

Module Theme.

(** The page slice: [document.documentElement.dataset.theme], the ids of the
    elements in the document, the local storage, the system preference and
    the text of the toggle button once it exists. *)
Record page := {
  theme : option jsstring;
  ids : list jsstring;
  localStorage : gmap jsstring jsstring;
  systemDark : bool;
  btn_text : option jsstring
}.

Definition key : jsstring := js "theme-preference".

Definition dark : jsstring := js "dark".
Definition light : jsstring := js "light".

(** U+2600 U+FE0F and U+1F319 (a surrogate pair). *)
Definition sun : jsstring := [9728%N; 65039%N].
Definition moon : jsstring := [55356%N; 57113%N].

Definition theme_style : jsstring := js "theme-style".

(** [$("#id")] finds an element. *)
Definition has_id (id : jsstring) (p : page) : bool := includes id (ids p).

Definition applyTheme (mode : jsstring) (p : page) : page :=
  {| theme := Some mode;
     ids := if has_id theme_style p then ids p else ids p ++ [theme_style];
     localStorage := localStorage p;
     systemDark := systemDark p;
     btn_text := btn_text p |}.

(** [saved || (prefersDark() ? "dark" : "light")]. *)
Definition initial (p : page) : jsstring :=
  or_else (localStorage p !! key) (if systemDark p then dark else light).

Definition icon (mode : jsstring) : jsstring :=
  if eqb mode dark then sun else moon.

(** The body of [themeToggle]: the initial theme is applied and the toggle
    button created and appended. *)
Definition themeToggle (p : page) : page :=
  let p1 := applyTheme (initial p) p in
  {| theme := theme p1;
     ids := ids p1 ++ [js "themeToggle"];
     localStorage := localStorage p1;
     systemDark := systemDark p1;
     btn_text := Some (icon (initial p)) |}.

(** The click listener of the toggle button. *)
Definition onClick (p : page) : page :=
  let current := or_else (theme p) light in
  let next := if eqb current dark then light else dark in
  let p1 := applyTheme next p in
  {| theme := theme p1;
     ids := ids p1;
     localStorage := <[key := next]> (localStorage p1);
     systemDark := systemDark p1;
     btn_text := Some (icon next) |}.

(** A theme is applied, or the button is clicked. *)
Inductive action :=
| Apply (mode : jsstring)
| Toggle.

Definition step (p : page) (a : action) : page :=
  match a with
  | Apply mode => applyTheme mode p
  | Toggle => onClick p
  end.

Definition run (actions : list action) (p : page) : page :=
  fold_left step actions p.

(** The number of elements that carry the id of the style block. *)
Definition style_blocks (p : page) : nat :=
  length (List.filter (eqb theme_style) (ids p)).

Definition is_theme (mode : jsstring) : Prop := mode = light \/ mode = dark.

(** The page of a first visit: nothing stored, no marker, a system that
    prefers light. *)
Definition first_visit : page :=
  {| theme := None; ids := []; localStorage := ∅; systemDark := false;
     btn_text := None |}.

End Theme.

(** ** Project filter *)

Module Filter.

Record button := {
  filter : option jsstring;      (* btn.dataset.filter *)
  classList : gset jsstring
}.

Record card := {
  tags : option jsstring;        (* card.dataset.tags *)
  display : jsstring             (* card.style.display *)
}.

(** The filter controls and the cards the two selectors match, and the
    indices of the controls that carry the click listener. *)
Record page := {
  buttons : list button;
  cards : list card;
  listeners : list nat
}.

Definition active : jsstring := js "active".
Definition all : jsstring := js "all".

(** [classList.toggle(token, force)]. *)
Definition toggle (token : jsstring) (force : bool) (cl : gset jsstring)
    : gset jsstring :=
  if force then {[token]} ∪ cl else cl ∖ {[token]}.

Section WithLowerCase.

(** [String.prototype.toLowerCase], left to the host. *)
Variable toLowerCase : jsstring -> jsstring.

Definition normalize (s : option jsstring) : jsstring :=
  trim (toLowerCase (or_else s [])).

(** The tags of a card, as [applyFilter] computes them. *)
Definition card_tags (c : card) : list jsstring :=
  map (fun s => normalize (Some s)) (split 44 (or_else (tags c) [])).

(** [setActive(btn)], [btn] being the control at index [k]. *)
Definition setActive (k : nat) (p : page) : page :=
  {| buttons :=
       imap (fun j b => {| filter := filter b;
                           classList := toggle active (Nat.eqb j k)
                                          (classList b) |})
            (buttons p);
     cards := cards p;
     listeners := listeners p |}.

Definition applyFilter (tag : jsstring) (p : page) : page :=
  {| buttons := buttons p;
     cards :=
       map (fun c =>
              let show := eqb tag all || includes tag (card_tags c) in
              {| tags := tags c;
                 display := if show then [] else js "none" |})
           (cards p);
     listeners := listeners p |}.

(** The click listener of the control at index [k]. *)
Definition onClick (k : nat) (p : page) : page :=
  match buttons p !! k with
  | Some btn => applyFilter (normalize (filter btn)) (setActive k p)
  | None => p
  end.

Definition projectFilter (p : page) : completion page :=
  if Nat.eqb (length (buttons p)) 0 || Nat.eqb (length (cards p)) 0
  then Normal p
  else
    Normal (applyFilter all
              {| buttons := buttons p; cards := cards p;
                 listeners := listeners p ++ seq 0 (length (buttons p)) |}).

(** Successive selections. *)
Definition selections (ks : list nat) (p : page) : page :=
  fold_left (fun p k => onClick k p) ks p.

End WithLowerCase.

Definition is_active (b : button) : bool :=
  bool_decide (active ∈ classList b).

Definition active_count (p : page) : nat :=
  length (List.filter is_active (buttons p)).

Definition is_shown (c : card) : Prop := display c = [].

Definition is_hidden (c : card) : Prop := display c = js "none".

(** A page with three controls ("all", "Web", "design") and three cards. *)
Definition demo : page :=
  {| buttons := [ {| filter := Some (js "all"); classList := {[active]} |};
                  {| filter := Some (js " Web"); classList := ∅ |};
                  {| filter := Some (js "design"); classList := ∅ |} ];
     cards := [ {| tags := Some (js "web, api"); display := [] |};
                {| tags := Some (js "Design"); display := [] |};
                {| tags := None; display := [] |} ];
     listeners := [] |}.

End Filter.

(** ** Modal image viewer *)

Module Lightbox.

Record img := {
  src : jsstring;
  alt : jsstring;
  cursor : option jsstring       (* img.style.cursor, when set *)
}.

(** The overlay and the enlarged image inside it. *)
Record viewer := {
  overlay_display : jsstring;
  big_src : jsstring;
  big_alt : jsstring
}.

Inductive target :=
| Overlay
| Document
| Image (k : nat).

(** The opt-in images the selector matches, the viewer once it is created,
    and the listeners registered. *)
Record page := {
  imgs : list img;
  view : option viewer;
  listeners : list (target * string)
}.

Definition open_ (src alt : jsstring) (v : viewer) : viewer :=
  {| overlay_display := js "flex"; big_src := src;
     big_alt := or_else (Some alt) [] |}.

Definition close (v : viewer) : viewer :=
  {| overlay_display := js "none"; big_src := big_src v;
     big_alt := big_alt v |}.

Definition with_view (f : viewer -> viewer) (p : page) : page :=
  {| imgs := imgs p; view := f <$> view p; listeners := listeners p |}.

(** The click listener of the overlay; [on_overlay] is [e.target === overlay]. *)
Definition onOverlayClick (on_overlay : bool) (p : page) : page :=
  if on_overlay then with_view close p else p.

Definition onKeydown (key : jsstring) (p : page) : page :=
  if eqb key (js "Escape") then with_view close p else p.

(** The click listener of the image at index [k]. *)
Definition onImageClick (k : nat) (p : page) : page :=
  match imgs p !! k with
  | Some im => with_view (open_ (src im) (alt im)) p
  | None => p
  end.

Definition lightbox (p : page) : completion page :=
  if Nat.eqb (length (imgs p)) 0 then Normal p
  else
    Normal
      {| imgs := map (fun im => {| src := src im; alt := alt im;
                                   cursor := Some (js "zoom-in") |})
                     (imgs p);
         view := Some {| overlay_display := js "none"; big_src := [];
                         big_alt := [] |};
         listeners := listeners p
                      ++ [(Overlay, "click"); (Document, "keydown")]
                      ++ map (fun k => (Image k, "click"))
                             (seq 0 (length (imgs p))) |}.

(** What the listeners of the viewer can receive. *)
Inductive event :=
| ImageClick (k : nat)
| OverlayClick (on_overlay : bool)
| Keydown (key : jsstring).

Definition step (p : page) (e : event) : page :=
  match e with
  | ImageClick k => onImageClick k p
  | OverlayClick on_overlay => onOverlayClick on_overlay p
  | Keydown key => onKeydown key p
  end.

Definition run (events : list event) (p : page) : page :=
  fold_left step events p.

End Lightbox.

(** ** Toast utility *)

Module Toast.

Record element := {
  textContent : jsstring;
  style : gmap string jsstring
}.

(** The page slice: the element with id "toast" if the document has one,
    how many elements [toast] appended to the body, the deadlines of the
    pending fade-out callbacks in the order they were scheduled, and the
    clock. *)
Record page := {
  toastEl : option element;
  appended : nat;
  timers : list Z;
  now : Z
}.

Definition createToast : element :=
  {| textContent := [];
     style :=
       object_assign ∅
         [("position", js "fixed"); ("left", js "50%");
          ("bottom", js "24px"); ("transform", js "translateX(-50%)");
          ("background", js "#1e1e2f"); ("color", js "#fff");
          ("padding", js "10px 14px"); ("borderRadius", js "12px");
          ("boxShadow", js "0 6px 18px rgba(0,0,0,.2)");
          ("zIndex", js "10001"); ("opacity", js "0");
          ("transition", js "opacity .25s ease, transform .25s ease");
          ("pointerEvents", js "none"); ("fontSize", js "14px")] |}.

(** The statements of [toast] after the element is at hand. *)
Definition show (msg : jsstring) (t : element) : element :=
  {| textContent := msg;
     style := <["transform" := js "translateX(-50%) translateY(0)"]>
                (<["opacity" := js "1"]> (style t)) |}.

(** The timeout callback. *)
Definition fade (t : element) : element :=
  {| textContent := textContent t;
     style := <["transform" := js "translateX(-50%) translateY(6px)"]>
                (<["opacity" := js "0"]> (style t)) |}.

(** [toast(msg, duration)]; an argument left out is [None], and durations
    are integers. *)
Definition toast (msg : option jsstring) (duration : option Z) (p : page)
    : page :=
  let msg := default [] msg in
  let duration := default 1500%Z duration in
  let t := default createToast (toastEl p) in
  {| toastEl := Some (show msg t);
     appended := match toastEl p with
                 | Some _ => appended p
                 | None => S (appended p)
                 end;
     timers := timers p ++ [(now p + timeout_delay duration)%Z];
     now := now p |}.

Definition due (time deadline : Z) : bool := (deadline <=? time)%Z.

(** The clock reaches [time]: every callback due by then runs.  The
    callbacks are all the same closure body over the one element, so the
    order in which the due ones run is immaterial. *)
Definition advance (time : Z) (p : page) : page :=
  {| toastEl :=
       fold_left (fun t _ => fade <$> t)
                 (List.filter (due time) (timers p)) (toastEl p);
     appended := appended p;
     timers := List.filter (fun d => negb (due time d)) (timers p);
     now := Z.max (now p) time |}.

(** A page on which no toast was shown yet, at time 0. *)
Definition fresh : page :=
  {| toastEl := None; appended := 0; timers := []; now := 0 |}.

Definition opacity (p : page) : option jsstring :=
  t ← toastEl p; style t !! "opacity".

Definition message (p : page) : option jsstring :=
  textContent <$> toastEl p.

Definition visible (p : page) : Prop := opacity p = Some (js "1").

(** A call of [toast], or the clock reaching a time. *)
Inductive event :=
| Call (msg : option jsstring) (duration : option Z)
| Clock (time : Z).

Definition step (p : page) (e : event) : page :=
  match e with
  | Call msg duration => toast msg duration p
  | Clock time => advance time p
  end.

Definition run (events : list event) (p : page) : page :=
  fold_left step events p.

End Toast.

(** ** Copy e-mail to clipboard *)

Module CopyEmail.

Record element := {
  data_copy_email : option jsstring;   (* el.dataset.copyEmail *)
  href : option jsstring               (* el.getAttribute("href") *)
}.

(** The first element the selector matches, if any, and whether the click
    listener is on it. *)
Record page := {
  el : option element;
  listening : bool
}.

Definition copyEmail (p : page) : completion page :=
  match el p with
  | None => Normal p
  | Some e => Normal {| el := Some e; listening := true |}
  end.

(** The address the listener resolves. *)
Definition email (e : element) : jsstring :=
  or_else (data_copy_email e)
          (trim (replace (js "mailto:") [] (or_else (href e) []))).

(** What the listener does before the clipboard answers: whether the default
    action is cancelled and what is handed to the clipboard. *)
Record click := {
  defaultPrevented : bool;
  written : option jsstring
}.

Definition ignored : click := {| defaultPrevented := false; written := None |}.

Definition onClick (e : element) : click :=
  if truthy (email e)
  then {| defaultPrevented := true; written := Some (email e) |}
  else ignored.

(** The continuations of the clipboard write: the toasts, and the
    navigations scheduled with the time they are due. *)
Record followup := {
  toasts : Toast.page;
  navigations : list (Z * jsstring)
}.

Definition copied_msg : jsstring := js "E-mail copiado!".

(** "Não foi possível copiar o e-mail." *)
Definition failed_msg : jsstring :=
  js "N" ++ [227%N] ++ js "o foi poss" ++ [237%N]
  ++ js "vel copiar o e-mail.".

Definition onCopied (address : jsstring) (f : followup) : followup :=
  {| toasts := Toast.toast (Some copied_msg) None (toasts f);
     navigations := navigations f
                    ++ [((Toast.now (toasts f) + 400)%Z,
                         js "mailto:" ++ address)] |}.

Definition onCopyFailed (f : followup) : followup :=
  {| toasts := Toast.toast (Some failed_msg) None (toasts f);
     navigations := navigations f |}.

(** What the listener finds behind [navigator.clipboard]: nothing (the
    property is undefined outside secure contexts), or a clipboard whose
    [writeText] fulfils, or one whose [writeText] rejects. *)
Inductive clipboard :=
| NoClipboard
| Fulfils
| Rejects.

(** The whole listener: with an address resolved, the default action is
    cancelled first; then the call on a missing clipboard throws, with
    nothing handed over and no continuation; otherwise the address is
    handed over and the continuation the answer selects runs. *)
Definition activate (e : element) (cb : clipboard) (f : followup)
    : completion (click * followup) :=
  let c := onClick e in
  match written c with
  | Some address =>
      match cb with
      | NoClipboard =>
          Throw "TypeError"
                ({| defaultPrevented := true; written := None |}, f)
      | Fulfils => Normal (c, onCopied address f)
      | Rejects => Normal (c, onCopyFailed f)
      end
  | None => Normal (c, f)
  end.

(** The click and the follow-up a completion leaves behind. *)
Definition settled (c : completion (click * followup)) : click * followup :=
  match c with
  | Normal r => r
  | Throw _ r => r
  end.

End CopyEmail.

(** ** Injected style sheet of the reveal animations *)

Module RevealStyle.

Definition styleId : jsstring := js "reveal-animations-style".

(** [injectRevealCSS] on the ids of the elements of the document. *)
Definition injectRevealCSS (ids : list jsstring) : list jsstring :=
  if includes styleId ids then ids else ids ++ [styleId].

End RevealStyle.

(** ** Lazy loading of images *)

Module LazyLoad.

(** The body of the pass for one image, given by its attributes: the
    selector [img:not([loading])] leaves out the images that carry the
    attribute, whatever its value. *)
Definition lazy (attrs : gmap string jsstring) : gmap string jsstring :=
  match attrs !! "loading" with
  | Some _ => attrs
  | None => <["decoding" := js "async"]> (<["loading" := js "lazy"]> attrs)
  end.

(** The pass over the images of the document. *)
Definition lazyLoading (imgs : list (gmap string jsstring))
    : list (gmap string jsstring) :=
  map lazy imgs.

End LazyLoad.

(** * Part II: properties *)

(** ** Strings *)

Module JSFacts.

Lemma eqb_spec (a b : jsstring) : reflect (a = b) (eqb a b).
Proof.
  revert b; induction a as [|x a IH]; intros [|y b]; simpl;
    try (constructor; congruence).
  destruct (N.eqb_spec x y) as [->|Hxy]; simpl.
  - destruct (IH b) as [->|Hab]; constructor; congruence.
  - constructor; congruence.
Qed.

Lemma eqb_eq (a b : jsstring) : eqb a b = true <-> a = b.
Proof. destruct (eqb_spec a b); split; intros; congruence. Qed.

Lemma eqb_refl (a : jsstring) : eqb a a = true.
Proof. now apply eqb_eq. Qed.

Lemma eqb_neq (a b : jsstring) : eqb a b = false <-> a <> b.
Proof. destruct (eqb_spec a b); split; intros; congruence. Qed.

Lemma includes_In (x : jsstring) (arr : list jsstring) :
  includes x arr = true <-> In x arr.
Proof.
  unfold includes. rewrite existsb_exists. split.
  - intros (y & Hy & He). apply eqb_eq in He. now subst.
  - intros H. exists x. split; [assumption | apply eqb_refl].
Qed.

Lemma or_else_truthy (s : option jsstring) (d : jsstring) :
  truthy d = true -> truthy (or_else s d) = true.
Proof.
  intros Hd. unfold or_else. destruct s as [v|]; [|assumption].
  destruct (truthy v) eqn:Hv; assumption.
Qed.

(** *** Trimming *)

Lemma last_rev (s : jsstring) : last (rev s) = head s.
Proof. destruct s as [|c s]; simpl; [reflexivity | apply last_snoc]. Qed.

Lemma head_rev (s : jsstring) : head (rev s) = last s.
Proof. rewrite <- (rev_involutive s) at 2. now rewrite last_rev. Qed.

Lemma trimStart_split (s : jsstring) :
  exists ws, s = ws ++ trimStart s /\ forallb is_ws ws = true.
Proof.
  induction s as [|c s (ws & Hs & Hws)]; simpl.
  - now exists [].
  - destruct (is_ws c) eqn:E.
    + exists (c :: ws). simpl. rewrite E, Hws. split; [congruence | reflexivity].
    + now exists [].
Qed.

Lemma trimStart_head (s : jsstring) (c : N) :
  head (trimStart s) = Some c -> is_ws c = false.
Proof.
  induction s as [|d s IH]; simpl; [discriminate|].
  destruct (is_ws d) eqn:E; [exact IH|]. simpl. congruence.
Qed.

Lemma trimStart_fixed (s : jsstring) :
  match head s with Some c => is_ws c = false | None => True end ->
  trimStart s = s.
Proof. destruct s as [|c s]; simpl; [reflexivity|]. now intros ->. Qed.

Lemma trimStart_blank (s : jsstring) :
  forallb is_ws s = true -> trimStart s = [].
Proof.
  induction s as [|c s IH]; simpl; [reflexivity|].
  intros H. apply andb_true_iff in H. destruct H as [-> H]. now apply IH.
Qed.

(** A last unit that is no white space stops the trimming. *)
Lemma trimStart_snoc (s : jsstring) (c : N) :
  is_ws c = false -> trimStart (s ++ [c]) = trimStart s ++ [c].
Proof.
  intros Hc. induction s as [|d s IH]; simpl.
  - now rewrite Hc.
  - destruct (is_ws d); [exact IH | reflexivity].
Qed.

Lemma trimEnd_split (s : jsstring) :
  exists ws, s = trimEnd s ++ ws /\ forallb is_ws ws = true.
Proof.
  destruct (trimStart_split (rev s)) as (ws & Hs & Hws).
  exists (rev ws). split.
  - unfold trimEnd. rewrite <- rev_app_distr, <- Hs. now rewrite rev_involutive.
  - rewrite forallb_forall in *. intros x Hx. apply Hws. now apply in_rev.
Qed.

Lemma trimEnd_last (s : jsstring) (c : N) :
  last (trimEnd s) = Some c -> is_ws c = false.
Proof.
  unfold trimEnd. rewrite last_rev. apply trimStart_head.
Qed.

Lemma trimEnd_head (s : jsstring) (c : N) :
  head s = Some c -> is_ws c = false -> head (trimEnd s) = Some c.
Proof.
  destruct s as [|d s]; simpl; [discriminate|]. intros [= ->] Hc.
  unfold trimEnd. simpl. rewrite trimStart_snoc by assumption.
  now rewrite rev_app_distr.
Qed.

Lemma trimEnd_fixed (s : jsstring) :
  match last s with Some c => is_ws c = false | None => True end ->
  trimEnd s = s.
Proof.
  intros H. unfold trimEnd. rewrite trimStart_fixed.
  - apply rev_involutive.
  - now rewrite head_rev.
Qed.

Lemma trim_head (s : jsstring) (c : N) :
  head (trim s) = Some c -> is_ws c = false.
Proof.
  unfold trim. destruct (trimStart s) as [|d t] eqn:E; [discriminate|].
  assert (Hd : is_ws d = false) by (apply (trimStart_head s); now rewrite E).
  rewrite (trimEnd_head (d :: t) d eq_refl Hd). congruence.
Qed.

Lemma trim_blank (s : jsstring) :
  forallb is_ws s = true -> trim s = [].
Proof. intros H. unfold trim. now rewrite trimStart_blank. Qed.

Lemma trim_idempotent (s : jsstring) : trim (trim s) = trim s.
Proof.
  unfold trim at 1. rewrite trimStart_fixed, trimEnd_fixed; [reflexivity| |].
  - destruct (last (trim s)) eqn:E; [now apply (trimEnd_last (trimStart s)) | exact I].
  - destruct (head (trim s)) eqn:E; [now apply (trim_head s) | exact I].
Qed.

(** [trim] removes white space at both ends and only there: what is left
    starts and ends with a unit that is none, so a second trim changes
    nothing. *)
Theorem trim_both_ends (s : jsstring) :
  (exists l r, s = l ++ trim s ++ r
               /\ forallb is_ws l = true /\ forallb is_ws r = true)
  /\ (forall c, head (trim s) = Some c -> is_ws c = false)
  /\ (forall c, last (trim s) = Some c -> is_ws c = false)
  /\ trim (trim s) = trim s.
Proof.
  assert (Hlast : forall c, last (trim s) = Some c -> is_ws c = false).
  { intros c. apply trimEnd_last. }
  split; [|split; [|split]].
  - destruct (trimStart_split s) as (l & Hl & Hwl).
    destruct (trimEnd_split (trimStart s)) as (r & Hr & Hwr).
    exists l, r. unfold trim. rewrite <- Hr. now split.
  - apply trim_head.
  - exact Hlast.
  - apply trim_idempotent.
Qed.

(** A text without white space at its ends is left as it is. *)
Lemma trim_fixed (s : jsstring) :
  (forall c, head s = Some c -> is_ws c = false) ->
  (forall c, last s = Some c -> is_ws c = false) ->
  trim s = s.
Proof.
  intros Hh Hl. unfold trim. rewrite trimStart_fixed, trimEnd_fixed;
    [reflexivity| |].
  - destruct (last s) eqn:E; [now apply Hl | exact I].
  - destruct (head s) eqn:E; [now apply Hh | exact I].
Qed.

Lemma or_else_self (s : jsstring) : or_else (Some s) [] = s.
Proof. now destruct s. Qed.

(** *** Splitting and joining *)

Lemma split_app_sep (sep : N) (part s : jsstring) :
  ~ In sep part -> split sep (part ++ sep :: s) = part :: split sep s.
Proof.
  induction part as [|c part IH]; intros Hnot.
  - cbn [app split]. now rewrite N.eqb_refl.
  - cbn [app split]. destruct (N.eqb_spec c sep) as [->|Hne].
    + exfalso. apply Hnot. now left.
    + rewrite IH; [reflexivity|]. intros Hin. apply Hnot. now right.
Qed.

Lemma split_no_sep (sep : N) (part : jsstring) :
  ~ In sep part -> split sep part = [part].
Proof.
  induction part as [|c part IH]; intros Hnot; [reflexivity|].
  cbn [split]. destruct (N.eqb_spec c sep) as [->|Hne].
  - exfalso. apply Hnot. now left.
  - rewrite IH; [reflexivity|]. intros Hin. apply Hnot. now right.
Qed.

(** [split] gives back the pieces that were joined. *)
Lemma split_join (sep : N) (parts : list jsstring) :
  parts <> [] -> Forall (fun part => ~ In sep part) parts ->
  split sep (join sep parts) = parts.
Proof.
  destruct parts as [|first rest]; [congruence|]. intros _.
  revert first. induction rest as [|r rest IH]; intros first H.
  - inversion H; subst. cbn [join flat_map]. rewrite app_nil_r.
    now apply split_no_sep.
  - inversion H as [|? ? Hf Hr]; subst.
    change (join sep (first :: r :: rest))
      with (first ++ sep :: join sep (r :: rest)).
    rewrite split_app_sep by assumption.
    f_equal. apply (IH r Hr).
Qed.

(** Every string is the join of its pieces, none of which holds the
    separator. *)
Lemma join_split (sep : N) (s : jsstring) :
  split sep s <> []
  /\ Forall (fun part => ~ In sep part) (split sep s)
  /\ join sep (split sep s) = s.
Proof.
  induction s as [|c s (Hne & Hall & Hjoin)].
  - split; [discriminate|]. split; [|reflexivity].
    constructor; [intros [] | constructor].
  - cbn [split]. destruct (N.eqb_spec c sep) as [->|Hc].
    + split; [discriminate|]. split.
      * constructor; [intros [] | exact Hall].
      * destruct (split sep s) as [|h t]; [congruence|].
        cbn [join flat_map app] in *. now rewrite Hjoin.
    + destruct (split sep s) as [|h t]; [congruence|].
      split; [discriminate|]. split.
      * inversion Hall as [|? ? Hh Ht]; subst. constructor; [|exact Ht].
        intros [Hin|Hin]; [congruence | now apply Hh].
      * cbn [join app] in *. now rewrite Hjoin.
Qed.

End JSFacts.

(** ** Typing effect *)

Module TypingFacts.
Import Typing JSFacts.

Lemma interleaved_app (a b : jsstring) :
  interleaved (a ++ b) = interleaved a ++ interleaved b.
Proof. unfold interleaved. apply flat_map_app. Qed.

Lemma interleaved_length (s : jsstring) :
  length (interleaved s) = 2 * length s.
Proof. induction s as [|c s IH]; simpl; [reflexivity | rewrite IH; lia]. Qed.

(** A typing call on a page whose element and closure are at hand. *)
Lemma typeNext_types (p : page) (children : list child) (v : closure)
    (x : N) :
  el p = Some children -> vars p = Some v -> full v !! i v = Some x ->
  el (typeNext p)
  = Some [Text (textContent (Some (cursor v)) children ++ [x]); CursorRef]
  /\ vars (typeNext p)
     = Some {| full := full v; i := S (i v); cursor := cursor v |}.
Proof.
  intros Hel Hv Hx. unfold typeNext. rewrite Hel, Hv.
  assert (Hlt : i v < length (full v)) by (eapply lookup_lt_Some; eassumption).
  apply Nat.ltb_lt in Hlt. rewrite Hlt. unfold charAt. rewrite Hx. simpl.
  split; [|reflexivity]. f_equal.
  destruct (textContent (Some (cursor v)) children ++ [x]) as [|c r] eqn:E.
  - destruct (textContent (Some (cursor v)) children); discriminate.
  - reflexivity.
Qed.

(** Once the text is typed a further call leaves element and closure alone. *)
Lemma typeNext_done (p : page) (children : list child) (v : closure) :
  el p = Some children -> vars p = Some v -> length (full v) <= i v ->
  el (typeNext p) = el p /\ vars (typeNext p) = vars p.
Proof.
  intros Hel Hv Hge. unfold typeNext. rewrite Hel, Hv.
  apply Nat.ltb_ge in Hge. rewrite Hge. simpl. split; reflexivity.
Qed.

(** The invariant of the typing loop. *)
Lemma ticks_invariant (children : list child) (p : page) (n : nat) :
  let source := trim (textContent None children) in
  exists cs v,
    el (ticks n children p) = Some cs
    /\ vars (ticks n children p) = Some v
    /\ full v = source
    /\ cursor v = createCursor
    /\ i v = Nat.min n (length source)
    /\ textContent (Some createCursor) cs = interleaved (firstn n source).
Proof.
  intros source. induction n as [|n IH].
  - exists [], {| full := source; i := 0; cursor := createCursor |}.
    repeat split.
  - destruct IH as (cs & v & Hel & Hv & Hfull & Hcur & Hi & Htext).
    change (ticks (S n) children p) with (typeNext (ticks n children p)).
    destruct (Nat.lt_ge_cases n (length source)) as [Hlt|Hge].
    + destruct (lookup_lt_is_Some_2 source n Hlt) as [x Hx].
      assert (Hix : full v !! i v = Some x).
      { rewrite Hfull, Hi, Nat.min_l by lia. exact Hx. }
      destruct (typeNext_types _ _ _ _ Hel Hv Hix) as [Hel' Hv'].
      eexists _, _. split; [exact Hel'|]. split; [exact Hv'|].
      cbn [full i cursor]. split; [assumption|]. split; [assumption|].
      split; [lia|].
      rewrite Hcur. simpl. rewrite Htext.
      rewrite (take_S_r _ _ _ Hx), interleaved_app. simpl.
      now rewrite <- app_assoc.
    + assert (Hdone : length (full v) <= i v) by (rewrite Hfull, Hi; lia).
      destruct (typeNext_done _ _ _ Hel Hv Hdone) as [Hel' Hv'].
      exists cs, v. rewrite Hel', Hv'. repeat split; try assumption.
      * lia.
      * rewrite Htext. now rewrite !firstn_all2 by lia.
Qed.

(** What [n] calls of [typeNext] leave behind. *)
Lemma ticks_rendered (children : list child) (p : page) (n : nat) :
  revealed (ticks n children p)
  = Nat.min n (length (trim (textContent None children)))
  /\ rendered (ticks n children p)
     = interleaved (firstn n (trim (textContent None children))).
Proof.
  destruct (ticks_invariant children p n)
    as (cs & v & Hel & Hv & _ & Hcur & Hi & Htext).
  unfold revealed, rendered. rewrite Hel, Hv. simpl.
  split; [exact Hi|]. now rewrite Hcur.
Qed.

(** C1 (what the code does): after [n] calls of [typeNext] exactly
    [min n N] characters of the trimmed source text are revealed, one more
    per call, and the element renders them with the cursor glyph after EACH
    of them: the getter read by [el.textContent += ...] returns the glyph of
    the attached cursor with the text typed so far.  The rendered text is
    the full source followed by one glyph only when the source has a single
    character. *)
Theorem typing_renders_glyph_after_each_char (children : list child)
    (p : page) (n : nat) :
  let source := trim (textContent None children) in
  revealed (ticks n children p) = Nat.min n (length source)
  /\ rendered (ticks n children p) = interleaved (firstn n source).
Proof.
  intros source. unfold source.
  destruct (ticks_rendered children p n) as [Hrevealed Hrendered].
  split.
  - exact Hrevealed.
  - exact Hrendered.
Qed.

(** After the [N] ticks the rendering is the source followed by a single
    trailing glyph exactly when [N = 1]. *)
Lemma full_text_then_cursor_iff (children : list child) (p : page) :
  let source := trim (textContent None children) in
  rendered (ticks (length source) children p) = source ++ glyph
  <-> length source = 1.
Proof.
  intros source.
  destruct (ticks_rendered children p (length source)) as [_ Hr].
  fold source in Hr. rewrite Hr, firstn_all. split.
  - intros H. apply (f_equal (@length N)) in H.
    rewrite interleaved_length, length_app in H. simpl in H. lia.
  - intros H. destruct source as [|c [|d r]]; try discriminate. reflexivity.
Qed.

(** The subtitle " ab ": after the two ticks the element shows "a▋b▋", not
    "ab▋". *)
Example typing_ab :
  let p := ticks 2 [Text (js " ab ")] (idle (Some [Text (js " ab ")])) in
  rendered p = js "a" ++ glyph ++ js "b" ++ glyph
  /\ rendered p <> js "ab" ++ glyph.
Proof. split; [reflexivity | discriminate]. Qed.

(** [typingEffect] makes the first call itself. *)
Lemma typingEffect_first_tick (p : page) (children : list child) :
  el p = Some children -> typingEffect p = Normal (ticks 1 children p).
Proof. intros H. unfold typingEffect. now rewrite H. Qed.

(** *** The timers of the loop, the blinking cursor, an empty subtitle *)

(** Of [n] calls of [typeNext] the first [N] schedule one timeout each and
    every later one starts an interval: the chain of timeouts ends with the
    call that finds the text complete, which starts the blinking. *)
Theorem typing_loop_stops (children : list child) (p : page) (n : nat) :
  let N := length (trim (textContent None children)) in
  timeouts (ticks n children p) = timeouts p + Nat.min n N
  /\ intervals (ticks n children p) = intervals p + (n - N).
Proof.
  intros N. induction n as [|n [IHt IHi]].
  - change (ticks 0 children p) with (prepare children p).
    unfold prepare. cbn [timeouts intervals]. lia.
  - destruct (ticks_invariant children p n)
      as (cs & v & Hel & Hv & Hfull & _ & Hi & _).
    change (ticks (S n) children p) with (typeNext (ticks n children p)).
    unfold typeNext. rewrite Hel, Hv, Hfull, Hi. fold N.
    destruct (Nat.ltb_spec (Nat.min n N) N);
      cbn [timeouts intervals]; rewrite ?IHt, ?IHi; lia.
Qed.

Lemma textContent_span_text (c1 c2 : span) (children : list child) :
  span_text c1 = span_text c2 ->
  textContent (Some c1) children = textContent (Some c2) children.
Proof.
  intros H. unfold textContent. apply flat_map_ext.
  intros [d|t|]; simpl; congruence.
Qed.

(** What the interval callback keeps, and what it does to the opacity of a
    cursor as [typingEffect] created it. *)
Lemma blinks_invariant (k : nat) (q : page) (v : closure) :
  vars q = Some v -> opacity (cursor v) = [] ->
  exists v',
    vars (blinks k q) = Some v'
    /\ full v' = full v /\ i v' = i v
    /\ span_text (cursor v') = span_text (cursor v)
    /\ el (blinks k q) = el q
    /\ timeouts (blinks k q) = timeouts q
    /\ intervals (blinks k q) = intervals q
    /\ opacity (cursor v')
       = match k with
         | 0 => []
         | S _ => if Nat.odd k then js "0" else js "1"
         end.
Proof.
  intros Hv Ho. induction k as [|k IH].
  - exists v. repeat split; assumption.
  - destruct IH as (v' & Hv' & Hf & Hi & Hs & Hel & Ht & Hint & Hop).
    change (blinks (S k) q) with (blink (blinks k q)).
    unfold blink. rewrite Hv'. eexists. split; [reflexivity|].
    cbn [full i cursor span_text opacity el timeouts intervals].
    repeat (split; [assumption|]).
    rewrite Hop. destruct k as [|k]; [reflexivity|].
    rewrite (Nat.odd_succ (S k)), <- Nat.negb_odd.
    destruct (Nat.odd (S k)); reflexivity.
Qed.

(** The blinking changes nothing but the cursor's opacity: the text shown,
    the characters revealed and the timers stay as the typing left them.
    The first run hides the cursor, and from then on the opacity is "0"
    after an odd number of runs and "1" after an even one. *)
Theorem cursor_blinks (children : list child) (p : page) (n k : nat) :
  let typed := ticks n children p in
  let q := blinks k typed in
  rendered q = rendered typed
  /\ revealed q = revealed typed
  /\ timeouts q = timeouts typed
  /\ intervals q = intervals typed
  /\ cursor_opacity q
     = Some (match k with
             | 0 => []
             | S _ => if Nat.odd k then js "0" else js "1"
             end).
Proof.
  intros typed q.
  destruct (ticks_invariant children p n)
    as (cs & v & Hel & Hv & _ & Hcur & _ & _).
  fold typed in Hel, Hv.
  assert (Ho : opacity (cursor v) = []) by now rewrite Hcur.
  destruct (blinks_invariant k typed v Hv Ho)
    as (v' & Hv' & Hf & Hi & Hs & Hel' & Ht & Hint & Hop).
  fold q in Hv', Hel', Ht, Hint.
  unfold rendered, revealed, cursor_opacity.
  rewrite Hel', Hel, Hv', Hv. cbn [fmap option_fmap option_map].
  split; [now apply textContent_span_text|].
  split; [exact Hi|]. split; [exact Ht|]. split; [exact Hint|].
  now rewrite Hop.
Qed.

(** A subtitle that is empty or holds white space only: the element is
    emptied, no character is ever typed, the cursor is never attached and
    no timeout is scheduled; each call starts an interval. *)
Theorem blank_subtitle_types_nothing (children : list child) (p : page)
    (n : nat) :
  forallb is_ws (textContent None children) = true ->
  el (ticks n children p) = Some []
  /\ rendered (ticks n children p) = []
  /\ revealed (ticks n children p) = 0
  /\ timeouts (ticks n children p) = timeouts p
  /\ intervals (ticks n children p) = intervals p + n.
Proof.
  intros Hblank.
  assert (H : ticks n children p
              = {| el := Some [];
                   vars := Some {| full := []; i := 0;
                                   cursor := createCursor |};
                   timeouts := timeouts p; intervals := intervals p + n |}).
  { induction n as [|n IH].
    - change (ticks 0 children p) with (prepare children p).
      unfold prepare. cbn [set_textContent].
      now rewrite (trim_blank _ Hblank), Nat.add_0_r.
    - change (ticks (S n) children p) with (typeNext (ticks n children p)).
      rewrite IH. unfold typeNext. cbn. f_equal. lia. }
  rewrite H. repeat split.
Qed.

Lemma blank_subtitle_types_nothing_witness :
  let children := [Text (js "  "); Element (js " ")] in
  forallb is_ws (textContent None children) = true
  /\ el (ticks 1 children (idle (Some children))) = Some []
  /\ rendered (ticks 1 children (idle (Some children))) = []
  /\ revealed (ticks 1 children (idle (Some children))) = 0
  /\ timeouts (ticks 1 children (idle (Some children))) = 0
  /\ intervals (ticks 1 children (idle (Some children))) = 0 + 1.
Proof.
  intros children.
  assert (H : forallb is_ws (textContent None children) = true)
    by reflexivity.
  split; [exact H|].
  exact (blank_subtitle_types_nothing children (idle (Some children)) 1 H).
Defined.

End TypingFacts.

(** ** Toast utility *)

Module ToastFacts.
Import Toast.

Lemma show_opacity (msg : jsstring) (t : element) :
  style (show msg t) !! "opacity" = Some (js "1").
Proof. unfold show. simpl. by simplify_map_eq. Qed.

Lemma fade_opacity (t : element) :
  style (fade t) !! "opacity" = Some (js "0").
Proof. unfold fade. simpl. by simplify_map_eq. Qed.

Lemma fade_textContent (t : element) : textContent (fade t) = textContent t.
Proof. reflexivity. Qed.

(** Running the callbacks of a list of due timers on the element. *)
Lemma fades_Some (ds : list Z) (t : element) :
  exists t',
    fold_left (fun (o : option element) (_ : Z) => fade <$> o) ds (Some t)
    = Some t'
    /\ textContent t' = textContent t
    /\ style t' !! "opacity"
       = match ds with
         | [] => style t !! "opacity"
         | _ :: _ => Some (js "0")
         end.
Proof.
  revert t. induction ds as [|d ds IH]; intros t; simpl.
  - exists t. repeat split.
  - destruct (IH (fade t)) as (t' & Hf & Htxt & Hop).
    exists t'. split; [exact Hf|]. split; [now rewrite Htxt|].
    rewrite Hop. destruct ds; [apply fade_opacity | reflexivity].
Qed.

Lemma fades_None (ds : list Z) :
  fold_left (fun (o : option element) (_ : Z) => fade <$> o) ds None = None.
Proof. induction ds as [|d ds IH]; simpl; [reflexivity | exact IH]. Qed.

(** The text survives the passing of time. *)
Lemma advance_message (time : Z) (p : page) :
  message (advance time p) = message p.
Proof.
  unfold message, advance. simpl. destruct (toastEl p) as [t|].
  - destruct (fades_Some (List.filter (due time) (timers p)) t)
      as (t' & -> & Htxt & _).
    simpl. now rewrite Htxt.
  - now rewrite fades_None.
Qed.

(** The opacity after the clock moved: "0" as soon as one callback was due. *)
Lemma advance_opacity (time : Z) (p : page) :
  is_Some (toastEl p) ->
  opacity (advance time p)
  = if existsb (due time) (timers p) then Some (js "0") else opacity p.
Proof.
  intros [t Ht]. unfold opacity, advance. simpl. rewrite Ht.
  destruct (fades_Some (List.filter (due time) (timers p)) t)
    as (t' & -> & _ & Hop).
  simpl. rewrite Hop.
  destruct (existsb (due time) (timers p)) eqn:E.
  - apply existsb_exists in E. destruct E as (d & Hin & Hd).
    assert (Hf : In d (List.filter (due time) (timers p)))
      by (apply filter_In; split; assumption).
    destruct (List.filter (due time) (timers p)); [destruct Hf | reflexivity].
  - destruct (List.filter (due time) (timers p)) as [|d l] eqn:F;
      [reflexivity|].
    assert (Hin : In d (List.filter (due time) (timers p)))
      by (rewrite F; now left).
    apply filter_In in Hin. destruct Hin as [Hin Hd].
    assert (existsb (due time) (timers p) = true)
      by (apply existsb_exists; eauto).
    congruence.
Qed.

Lemma toast_opacity (msg : option jsstring) (duration : option Z) (p : page) :
  opacity (toast msg duration p) = Some (js "1").
Proof. unfold opacity, toast. simpl. by simplify_map_eq. Qed.

Lemma toast_message (msg : option jsstring) (duration : option Z) (p : page) :
  message (toast msg duration p) = Some (default [] msg).
Proof. reflexivity. Qed.

(** Nothing is due before the earliest deadline. *)
Lemma advance_timers_early (time : Z) (p : page) :
  Forall (fun d => (time < d)%Z) (timers p) ->
  timers (advance time p) = timers p.
Proof.
  intros H. unfold advance. simpl.
  induction (timers p) as [|d l IH]; simpl; [reflexivity|].
  inversion H as [|? ? Hd Hl]; subst. unfold due at 1.
  destruct (Z.leb_spec d time); [lia|]. simpl. f_equal. now apply IH.
Qed.

(** [toast] never creates a second element. *)
Lemma toast_reuses (msg : option jsstring) (duration : option Z) (p : page) :
  is_Some (toastEl p) -> appended (toast msg duration p) = appended p.
Proof. intros [t Ht]. unfold toast. simpl. now rewrite Ht. Qed.

Lemma toast_element (msg : option jsstring) (duration : option Z) (p : page) :
  is_Some (toastEl (toast msg duration p)).
Proof. unfold toast. simpl. eauto. Qed.

Lemma advance_element (time : Z) (p : page) :
  is_Some (toastEl p) -> is_Some (toastEl (advance time p)).
Proof.
  intros [t Ht]. unfold advance. simpl. rewrite Ht.
  destruct (fades_Some (List.filter (due time) (timers p)) t) as (t' & -> & _).
  eauto.
Qed.

Lemma none_due_iff (time : Z) (deadlines : list Z) :
  existsb (due time) deadlines = false
  <-> Forall (fun d => (time < d)%Z) deadlines.
Proof.
  unfold due. induction deadlines as [|d l IH]; simpl.
  - split; [constructor | reflexivity].
  - rewrite orb_false_iff, IH, Z.leb_gt. split.
    + intros [Hd Hl]. now constructor.
    + intros H. inversion H; subst. now split.
Qed.

Lemma pending_filter (time : Z) (deadlines : list Z) :
  List.filter (fun d => negb (due time d)) deadlines
  = List.filter (fun d => (time <? d)%Z) deadlines.
Proof.
  apply filter_ext. intros d. unfold due. now rewrite Z.ltb_antisym.
Qed.

(** C2 (amended): of two overlapping calls the second appends no element, it
    replaces the text and makes the element visible, and it schedules a
    fade-out of its own after its duration (1500 when left out, taken as a
    32-bit signed integer, 0 when negative) behind every fade-out still
    pending, none of which is cancelled.  The later message is visible
    exactly as long as no pending deadline is reached, the first call's, its
    own or that of a still earlier toast; so never beyond the earlier of the
    two calls' deadlines, and exactly until then when no earlier toast is
    pending.  Its text stays in place. *)
Theorem overlapping_toasts (p0 : page) (m1 m2 : option jsstring)
    (d1 d2 : option Z) (t2 t : Z) :
  let D1 := Z.max 0 ((default 1500 d1 + 2147483648) mod 4294967296
                     - 2147483648)%Z in
  let D2 := Z.max 0 ((default 1500 d2 + 2147483648) mod 4294967296
                     - 2147483648)%Z in
  let p1 := toast m1 d1 p0 in
  let p2 := toast m2 d2 (advance t2 p1) in
  let p3 := advance t p2 in
  let earlier := List.filter (fun d => (t2 <? d)%Z) (timers p0) in
  (now p0 <= t2 < now p0 + D1)%Z ->
  (t2 <= t)%Z ->
  appended p2 = appended p1
  /\ timers p2 = earlier ++ [(now p0 + D1)%Z; (t2 + D2)%Z]
  /\ message p3 = Some (default [] m2)
  /\ (visible p3 <-> Forall (fun d => (t < d)%Z) (timers p2))
  /\ (visible p3 -> (t < Z.min (now p0 + D1) (t2 + D2))%Z)
  /\ (earlier = [] ->
      (visible p3 <-> (t < Z.min (now p0 + D1) (t2 + D2))%Z)).
Proof.
  intros D1 D2 p1 p2 p3 earlier Hover Hlater.
  assert (Ht1 : timers p1 = timers p0 ++ [(now p0 + D1)%Z]) by reflexivity.
  assert (Ht1' : timers (advance t2 p1) = earlier ++ [(now p0 + D1)%Z]).
  { unfold advance. cbn [timers]. rewrite pending_filter, Ht1.
    rewrite List.filter_app. cbn [List.filter].
    destruct (Z.ltb_spec t2 (now p0 + D1)); [reflexivity | lia]. }
  assert (Hnow : now (advance t2 p1) = t2).
  { unfold advance, p1, toast. cbn [now]. lia. }
  assert (Ht2 : timers p2 = earlier ++ [(now p0 + D1)%Z; (t2 + D2)%Z]).
  { unfold p2, toast. cbn [timers now]. rewrite Ht1', Hnow.
    now rewrite <- app_assoc. }
  assert (Hvis : visible p3 <-> Forall (fun d => (t < d)%Z) (timers p2)).
  { unfold visible, p3.
    rewrite advance_opacity by (unfold p2; apply toast_element).
    rewrite <- none_due_iff.
    destruct (existsb (due t) (timers p2)).
    - split; discriminate.
    - unfold p2. rewrite toast_opacity. split; reflexivity. }
  assert (Hmin : Forall (fun d => (t < d)%Z) (timers p2) ->
                 (t < Z.min (now p0 + D1) (t2 + D2))%Z).
  { rewrite Ht2. intros H. apply Forall_app in H. destruct H as [_ H].
    inversion H as [|? ? Ha H']; subst. inversion H' as [|? ? Hb _]; subst.
    lia. }
  split.
  { unfold p2. rewrite toast_reuses; [reflexivity|].
    apply advance_element. unfold p1. apply toast_element. }
  split; [exact Ht2|]. split.
  { unfold p3. rewrite advance_message. apply toast_message. }
  split; [exact Hvis|]. split.
  { intros H. apply Hmin. now apply Hvis. }
  intros He. rewrite Hvis. split; [exact Hmin|].
  intros H. rewrite Ht2, He. cbn [app].
  constructor; [lia|]. constructor; [lia | constructor].
Qed.

(** The theorem at three default-duration toasts at 0, 500 and 1000, the
    third looked at 200 units after it was shown. *)
Lemma overlapping_toasts_witness :
  let p0 := advance 500 (toast (Some (js "zeroth")) None fresh) in
  let p2 := toast (Some (js "second")) None
              (advance 1000 (toast (Some (js "first")) None p0)) in
  (now p0 <= 1000 < now p0 + 1500)%Z
  /\ (1000 <= 1200)%Z
  /\ appended p2 = 1
  /\ timers p2 = [1500%Z] ++ [2000%Z; 2500%Z]
  /\ message (advance 1200 p2) = Some (js "second")
  /\ (visible (advance 1200 p2)
      <-> Forall (fun d => (1200 < d)%Z) (timers p2))
  /\ (visible (advance 1200 p2) -> (1200 < Z.min 2000 2500)%Z).
Proof.
  intros p0 p2.
  assert (H2 : (now p0 <= 1000 < now p0 + 1500)%Z) by (simpl; lia).
  assert (H3 : (1000 <= 1200)%Z) by lia.
  split; [exact H2|]. split; [exact H3|].
  destruct (overlapping_toasts p0 (Some (js "first")) (Some (js "second"))
              None None 1000 1200 H2 H3) as (Ha & Ht & Hm & Hv & Hmin & _).
  split; [exact Ha|]. split; [exact Ht|]. split; [exact Hm|].
  split; [exact Hv | exact Hmin].
Defined.

(** C2 (as stated, refuted): the second of two default-duration toasts, shown
    at time 1000, should stay visible until 2500; the first toast's
    callback, never cancelled, hides it at 1500. *)
Lemma later_toast_hidden_by_earlier_timer :
  let p := advance 1500
             (toast (Some (js "second")) None
                (advance 1000 (toast (Some (js "first")) None fresh))) in
  (1000 <= 1500 < 1000 + 1500)%Z
  /\ message p = Some (js "second")
  /\ ~ visible p.
Proof.
  intros p. split; [lia|]. split; [reflexivity|].
  unfold visible. vm_compute. discriminate.
Qed.

(** *** One toast, and any sequence of toasts *)



Lemma run_app (a b : list event) (p : page) :
  run (a ++ b) p = run b (run a p).
Proof. unfold run. apply fold_left_app. Qed.

Lemma step_element_stays (e : event) (p : page) :
  is_Some (toastEl p) ->
  is_Some (toastEl (step p e)) /\ appended (step p e) = appended p.
Proof.
  intros H. destruct e as [msg duration|time]; cbn [step].
  - split; [apply toast_element | now apply toast_reuses].
  - split; [now apply advance_element | reflexivity].
Qed.

Lemma run_element_stays (events : list event) (p : page) :
  is_Some (toastEl p) ->
  is_Some (toastEl (run events p)) /\ appended (run events p) = appended p.
Proof.
  revert p. induction events as [|e events IH]; intros p H; [now split|].
  destruct (step_element_stays e p H) as [Hs Ha].
  destruct (IH (step p e) Hs) as [Hs' Ha'].
  split; [exact Hs' | simpl; fold (run events (step p e)); congruence].
Qed.

Lemma run_clock_message (times : list Z) (p : page) :
  message (run (map Clock times) p) = message p.
Proof.
  revert p. induction times as [|t times IH]; intros p; [reflexivity|].
  simpl. fold (run (map Clock times) (advance t p)).
  now rewrite IH, advance_message.
Qed.

(** The number of elements appended follows the presence of the element. *)
Lemma run_appended (events : list event) (p : page) :
  appended (run events p)
  = appended p
    + match toastEl p, toastEl (run events p) with
      | None, Some _ => 1
      | _, _ => 0
      end.
Proof.
  revert p. induction events as [|e events IH]; intros p.
  - simpl. destruct (toastEl p); lia.
  - simpl. fold (run events (step p e)).
    destruct (toastEl p) as [t|] eqn:Ep.
    + assert (Hs : is_Some (toastEl p)) by (rewrite Ep; eauto).
      destruct (run_element_stays (e :: events) p Hs) as [_ Ha].
      simpl in Ha. fold (run events (step p e)) in Ha. lia.
    + destruct e as [msg duration|time]; cbn [step].
      * destruct (run_element_stays events (toast msg duration p)
                    (toast_element msg duration p)) as [[t' Ht'] Ha].
        rewrite Ha, Ht'. unfold toast. cbn [appended]. rewrite Ep. lia.
      * rewrite IH. unfold advance at 1 2. cbn [appended toastEl].
        rewrite Ep, fades_None. reflexivity.
Qed.

(** Whatever toasts and clock readings came before, after a call of [toast]
    the element shows that call's message until the next call, however the
    clock moves; and over the whole run one element at most was created:
    one if the document had none, none otherwise. *)
Theorem latest_toast_wins (events : list event) (msg : option jsstring)
    (duration : option Z) (times : list Z) (p : page) :
  let q := run (events ++ Call msg duration :: map Clock times) p in
  message q = Some (default [] msg)
  /\ is_Some (toastEl q)
  /\ appended q = appended p + match toastEl p with
                               | Some _ => 0
                               | None => 1
                               end.
Proof.
  intros q.
  assert (Hq : q = run (map Clock times)
                       (toast msg duration (run events p))).
  { unfold q. now rewrite run_app. }
  assert (Hel : is_Some (toastEl q)).
  { rewrite Hq. apply run_element_stays, toast_element. }
  split; [rewrite Hq, run_clock_message; apply toast_message|].
  split; [exact Hel|].
  unfold q. rewrite run_appended. fold q.
  destruct Hel as [t ->]. reflexivity.
Qed.

End ToastFacts.

(** ** Back-to-top button *)

Module BackToTopFacts.
Import BackToTop.

Lemma gt_spec (a b : Q) : gt a b = true <-> (b < a)%Q.
Proof.
  unfold gt. rewrite negb_true_iff. split.
  - intros H. apply Qnot_le_lt. intros Hle.
    apply Qle_bool_iff in Hle. congruence.
  - intros H. destruct (Qle_bool a b) eqn:E; [|reflexivity].
    apply Qle_bool_iff in E. exfalso. exact (Qlt_not_le _ _ H E).
Qed.

Lemma onScroll_display (y : Q) (btn : button) :
  display (onScroll y btn)
  = Some (if gt y 300 then js "grid" else js "none").
Proof. unfold display, onScroll. simpl. by simplify_map_eq. Qed.

(** Only the last scroll event matters. *)
Lemma scrolls_last (positions : list Q) (y : Q) (btn : button) :
  scrolls (positions ++ [y]) btn = onScroll y (scrolls positions btn).
Proof. unfold scrolls. now rewrite fold_left_app. Qed.

(** C3: after any sequence of scroll events the button is shown if and only
    if the offset of the last one exceeds 300, and hidden otherwise; it is
    hidden at 300 and shown at 301, and hidden when it is created. *)
Theorem back_to_top_shown_iff_beyond_300 (positions : list Q) (y : Q)
    (btn : button) :
  let b := scrolls (positions ++ [y]) btn in
  (shown b <-> (300 < y)%Q)
  /\ (hidden b <-> (y <= 300)%Q)
  /\ hidden (onScroll 300 btn)
  /\ shown (onScroll 301 btn)
  /\ hidden backToTopButton.
Proof.
  intros b. unfold b. rewrite scrolls_last.
  unfold shown, hidden. rewrite !onScroll_display.
  repeat split; try reflexivity.
  - destruct (gt y 300) eqn:E; [intros _; now apply gt_spec | discriminate].
  - intros H. apply gt_spec in H. now rewrite H.
  - destruct (gt y 300) eqn:E; [discriminate|]. intros _.
    apply Qnot_lt_le. intros H. apply gt_spec in H. congruence.
  - intros H. destruct (gt y 300) eqn:E; [|reflexivity].
    apply gt_spec in E. exfalso. exact (Qlt_not_le _ _ E H).
Qed.

(** *** What scrolling leaves alone *)

Lemma onScroll_other (y : Q) (btn : button) (k : string) :
  k <> "display"%string -> style (onScroll y btn) !! k = style btn !! k.
Proof. intros H. unfold onScroll. cbn [style]. now rewrite lookup_insert_ne. Qed.

Lemma onScroll_style (y : Q) (btn : button) :
  style (onScroll y btn)
  = <["display" := if gt y 300 then js "grid" else js "none"]> (style btn).
Proof. reflexivity. Qed.

(** After scroll events the style is the one before with the display of the
    last event written over it. *)
Lemma scrolls_style (positions : list Q) (y : Q) (btn : button) :
  style (scrolls (positions ++ [y]) btn)
  = <["display" := if gt y 300 then js "grid" else js "none"]> (style btn).
Proof.
  rewrite scrolls_last, onScroll_style.
  destruct positions as [|y0 positions] using rev_ind; [reflexivity|].
  rewrite scrolls_last, onScroll_style, insert_insert_eq.
  exact IHpositions.
Qed.

(** Scrolling changes the button in its display only: after any scroll
    events, the last at offset [y], the style of the button is the style it
    had before with the display set to "grid" if [y] exceeds 300 and to
    "none" otherwise; every other property is what it was. *)
Theorem scrolling_touches_display_only (positions : list Q) (y : Q)
    (btn : button) :
  ((300 < y)%Q ->
   style (scrolls (positions ++ [y]) btn)
   = <["display" := js "grid"]> (style btn))
  /\ ((y <= 300)%Q ->
      style (scrolls (positions ++ [y]) btn)
      = <["display" := js "none"]> (style btn))
  /\ forall k, k <> "display"%string ->
               style (scrolls (positions ++ [y]) btn) !! k = style btn !! k.
Proof.
  rewrite scrolls_style. split; [|split].
  - intros H. apply gt_spec in H. now rewrite H.
  - intros H. destruct (gt y 300) eqn:E; [|reflexivity].
    apply gt_spec in E. exfalso. exact (Qlt_not_le _ _ E H).
  - intros k Hk. rewrite lookup_insert_ne by congruence. reflexivity.
Qed.

(** The theorem on the button as created, scrolled to 0 and then to 500. *)
Lemma scrolling_touches_display_only_witness :
  (300 < 500)%Q
  /\ "position"%string <> "display"%string
  /\ style (scrolls ([0%Q] ++ [500%Q]) backToTopButton)
     = <["display" := js "grid"]> (style backToTopButton)
  /\ style (scrolls ([0%Q] ++ [500%Q]) backToTopButton) !! "position"%string
     = style backToTopButton !! "position"%string.
Proof.
  assert (H1 : (300 < 500)%Q) by reflexivity.
  assert (H2 : "position"%string <> "display"%string) by discriminate.
  destruct (scrolling_touches_display_only [0%Q] 500%Q backToTopButton)
    as (Hgrid & _ & Hother).
  split; [exact H1|]. split; [exact H2|].
  split; [exact (Hgrid H1) | exact (Hother "position"%string H2)].
Defined.

End BackToTopFacts.

(** ** Theme toggle *)

Module ThemeFacts.
Import Theme JSFacts.

Lemma filter_nil_of_existsb {A : Type} (f : A -> bool) (l : list A) :
  existsb f l = false -> List.filter f l = [].
Proof.
  induction l as [|x l IH]; simpl; [reflexivity|].
  destruct (f x); simpl; [discriminate | exact IH].
Qed.

Lemma filter_length_of_existsb {A : Type} (f : A -> bool) (l : list A) :
  existsb f l = true -> 1 <= length (List.filter f l).
Proof.
  induction l as [|x l IH]; simpl; [discriminate|].
  destruct (f x); simpl; [lia | exact IH].
Qed.

(** Applying a theme leaves a style block in place and inserts one when
    there is none. *)
Lemma applyTheme_ids (mode : jsstring) (p : page) :
  style_blocks (applyTheme mode p) = Nat.max 1 (style_blocks p)
  /\ length (ids (applyTheme mode p))
     = length (ids p) + (1 - style_blocks p).
Proof.
  unfold style_blocks, applyTheme, has_id, includes. cbn [ids].
  destruct (existsb (eqb theme_style) (ids p)) eqn:E.
  - apply filter_length_of_existsb in E. lia.
  - apply filter_nil_of_existsb in E.
    rewrite List.filter_app, length_app, E. cbn [List.filter].
    rewrite eqb_refl, length_app. cbn [length]. lia.
Qed.

Lemma onClick_ids (p : page) :
  style_blocks (onClick p) = Nat.max 1 (style_blocks p)
  /\ length (ids (onClick p)) = length (ids p) + (1 - style_blocks p).
Proof.
  unfold onClick.
  set (next := if eqb (or_else (theme p) light) dark then light else dark).
  exact (applyTheme_ids next p).
Qed.

Lemma step_ids (p : page) (a : action) :
  style_blocks (step p a) = Nat.max 1 (style_blocks p)
  /\ length (ids (step p a)) = length (ids p) + (1 - style_blocks p).
Proof. destruct a; [apply applyTheme_ids | apply onClick_ids]. Qed.

Lemma run_ids (actions : list action) (p : page) :
  style_blocks (run actions p) <= Nat.max 1 (style_blocks p)
  /\ style_blocks p <= style_blocks (run actions p)
  /\ length (ids (run actions p))
     = length (ids p) + (style_blocks (run actions p) - style_blocks p).
Proof.
  revert p. induction actions as [|a actions IH]; intros p; simpl.
  - lia.
  - destruct (step_ids p a) as [Hs Hl].
    destruct (IH (step p a)) as (H1 & H2 & H3).
    fold (run actions (step p a)). lia.
Qed.

(** The body of [themeToggle] sets the marker to the initial theme. *)
Lemma themeToggle_theme (p : page) :
  theme (themeToggle p) = Some (initial p)
  /\ localStorage (themeToggle p) = localStorage p
  /\ style_blocks (themeToggle p) = Nat.max 1 (style_blocks p).
Proof.
  split; [reflexivity|]. split; [reflexivity|].
  unfold style_blocks, themeToggle. cbn [ids].
  rewrite List.filter_app, length_app.
  replace (List.filter (eqb theme_style) [js "themeToggle"])
    with (@nil jsstring) by reflexivity.
  cbn [length]. rewrite Nat.add_0_r. apply applyTheme_ids.
Qed.

(** The initial theme is a theme whenever the saved preference is one, or
    is absent or empty. *)
Lemma initial_is_theme (p : page) :
  match localStorage p !! key with
  | Some m => m = [] \/ is_theme m
  | None => True
  end ->
  is_theme (initial p).
Proof.
  unfold initial, is_theme.
  destruct (localStorage p !! key) as [m|]; simpl.
  - intros [->|[->| ->]]; simpl; try (now left); try (now right).
    destruct (systemDark p); [now right | now left].
  - intros _. destruct (systemDark p); [now right | now left].
Qed.

Lemma onClick_theme (p : page) (m : jsstring) :
  theme p = Some m -> is_theme m ->
  let next := if eqb m dark then light else dark in
  theme (onClick p) = Some next
  /\ localStorage (onClick p) = <[key := next]> (localStorage p)
  /\ btn_text (onClick p) = Some (icon next).
Proof.
  intros Hm Hth next. unfold onClick. rewrite Hm.
  assert (Hor : or_else (Some m) light = m).
  { destruct Hth as [-> | ->]; reflexivity. }
  rewrite Hor. repeat split.
Qed.

(** C4 (amended): from a page whose marker is one of the two themes, two
    clicks on the toggle bring the marker back to it and leave it as the
    stored preference: the storage is what it was with the initial theme
    written under the preference key, hence unchanged when the initial theme
    was stored already, and holding it for the first time when nothing was
    stored.  Whatever themes are applied and however often the button is
    clicked, the document gains at most one element and holds one style
    block unless it held more to begin with. *)
Theorem theme_toggle_round_trip (p : page) (m : jsstring)
    (actions : list action) :
  theme p = Some m -> is_theme m ->
  theme (onClick (onClick p)) = Some m
  /\ localStorage (onClick (onClick p)) !! key = Some m
  /\ localStorage (onClick (onClick p)) = <[key := m]> (localStorage p)
  /\ (localStorage p !! key = Some m ->
      localStorage (onClick (onClick p)) = localStorage p)
  /\ style_blocks (run actions p) <= Nat.max 1 (style_blocks p)
  /\ length (ids (run actions p)) <= length (ids p) + 1.
Proof.
  intros Hm Hth.
  destruct (onClick_theme p m Hm Hth) as (H1 & H2 & _).
  set (next := if eqb m dark then light else dark) in *.
  assert (Hnext : is_theme next).
  { unfold next. destruct (eqb m dark); [now left | now right]. }
  destruct (onClick_theme (onClick p) next H1 Hnext) as (H3 & H4 & _).
  assert (Hback : (if eqb next dark then light else dark) = m).
  { unfold next. destruct Hth as [-> | ->]; reflexivity. }
  rewrite Hback in H3, H4.
  assert (Hstore : localStorage (onClick (onClick p))
                   = <[key := m]> (localStorage p)).
  { rewrite H4, H2. apply insert_insert_eq. }
  split; [exact H3|]. split.
  { rewrite H4. apply lookup_insert_eq. }
  split; [exact Hstore|]. split.
  { intros Hsaved. rewrite Hstore. now apply insert_id. }
  destruct (run_ids actions p) as (Ha & Hb & Hc). split; [exact Ha|]. lia.
Qed.

(** The theorem on the page of a returning visitor who had chosen dark,
    once the script ran. *)
Lemma theme_toggle_round_trip_witness :
  let p := themeToggle
             {| theme := None; ids := [];
                localStorage := {[key := dark]};
                systemDark := false; btn_text := None |} in
  let actions := [Toggle; Apply dark; Toggle; Toggle] in
  theme p = Some dark
  /\ is_theme dark
  /\ localStorage p !! key = Some dark
  /\ theme (onClick (onClick p)) = Some dark
  /\ localStorage (onClick (onClick p)) = localStorage p
  /\ style_blocks (run actions p) <= Nat.max 1 (style_blocks p)
  /\ length (ids (run actions p)) <= length (ids p) + 1.
Proof.
  intros p actions.
  assert (H1 : theme p = Some dark) by reflexivity.
  assert (H2 : is_theme dark) by (right; reflexivity).
  assert (H3 : localStorage p !! key = Some dark) by reflexivity.
  destruct (theme_toggle_round_trip p dark actions H1 H2)
    as (Ht & _ & _ & Hs & Hb & Hl).
  split; [exact H1|]. split; [exact H2|]. split; [exact H3|].
  split; [exact Ht|]. split; [exact (Hs H3)|]. split; [exact Hb | exact Hl].
Defined.

(** C4 (as stated, refuted): on a first visit nothing is stored when the
    script has run, since start-up applies the theme without writing it;
    two clicks bring the marker back to "light" but leave "light" stored,
    so the stored preference is not back at its initial value. *)
Lemma first_visit_preference_not_restored :
  let p := themeToggle first_visit in
  theme p = Some light
  /\ theme (onClick (onClick p)) = Some light
  /\ localStorage p !! key = None
  /\ localStorage (onClick (onClick p)) !! key = Some light
  /\ localStorage (onClick (onClick p)) !! key <> localStorage p !! key.
Proof.
  intros p. split; [reflexivity|]. split; [reflexivity|].
  split; [reflexivity|]. split; [vm_compute; reflexivity|].
  vm_compute. discriminate.
Qed.

(** Outside the two themes the round trip does not hold: a marker "blue",
    as a foreign value in the store would give, becomes "light". *)
Example foreign_marker_is_normalised :
  let p := themeToggle
             {| theme := None; ids := [];
                localStorage := {[key := js "blue"]};
                systemDark := false; btn_text := None |} in
  theme p = Some (js "blue")
  /\ theme (onClick (onClick p)) = Some light.
Proof. split; vm_compute; reflexivity. Qed.

(** *** Clicks from any marker, and the parity of clicks after start-up *)

Lemma onClick_any (p : page) :
  let next := if eqb (or_else (theme p) light) dark then light else dark in
  theme (onClick p) = Some next
  /\ localStorage (onClick p) = <[key := next]> (localStorage p)
  /\ btn_text (onClick p) = Some (icon next)
  /\ systemDark (onClick p) = systemDark p.
Proof. intros next. repeat split. Qed.

(** After one click or more, whatever the page was before (no marker, a
    foreign marker, a foreign stored value), the marker is "light" or
    "dark", the stored preference equals it, the button shows the sun when
    it is dark and the moon when it is light, and no other key of the
    storage was touched. *)
Theorem clicks_land_on_a_theme (p : page) (n : nat) :
  let q := Nat.iter (S n) onClick p in
  exists m,
    is_theme m
    /\ theme q = Some m
    /\ localStorage q !! key = Some m
    /\ btn_text q = Some (if eqb m dark then sun else moon)
    /\ forall k, k <> key -> localStorage q !! k = localStorage p !! k.
Proof.
  intros q. unfold q. clear q. induction n as [|n IH].
  - destruct (onClick_any p) as (Ht & Hs & Hb & _).
    cbn [Nat.iter nat_rect] in *. eexists. split; [|split; [exact Ht|]].
    + destruct (eqb (or_else (theme p) light) dark); [now left | now right].
    + rewrite Hs. split; [apply lookup_insert_eq|]. split; [exact Hb|].
      intros k Hk. now apply lookup_insert_ne.
  - destruct IH as (m & _ & _ & _ & _ & Hother).
    set (r := Nat.iter (S n) onClick p) in *.
    change (Nat.iter (S (S n)) onClick p) with (onClick r).
    destruct (onClick_any r) as (Ht & Hs & Hb & _).
    eexists. split; [|split; [exact Ht|]].
    + destruct (eqb (or_else (theme r) light) dark); [now left | now right].
    + rewrite Hs. split; [apply lookup_insert_eq|]. split; [exact Hb|].
      intros k Hk. rewrite lookup_insert_ne by congruence. now apply Hother.
Qed.

(** From start-up with a theme as initial value, the marker after [n]
    clicks is the initial theme when [n] is even and the other theme when
    it is odd, with the matching icon on the button.  Start-up itself writes
    nothing to the storage; after the first click the stored preference is
    the marker. *)
Theorem clicks_alternate (p : page) (n : nat) :
  is_theme (initial p) ->
  let other := if eqb (initial p) dark then light else dark in
  let m := if Nat.even n then initial p else other in
  let q := Nat.iter n onClick (themeToggle p) in
  theme q = Some m
  /\ btn_text q = Some (icon m)
  /\ localStorage q !! key
     = match n with
       | 0 => localStorage p !! key
       | S _ => Some m
       end.
Proof.
  intros Hth other m q. unfold q, m. clear q m. induction n as [|n IH].
  - repeat split.
  - destruct IH as (Ht & _ & _).
    set (r := Nat.iter n onClick (themeToggle p)) in *.
    change (Nat.iter (S n) onClick (themeToggle p)) with (onClick r).
    assert (Hm : is_theme (if Nat.even n then initial p else other)).
    { destruct (Nat.even n); [exact Hth|].
      unfold other. destruct (eqb (initial p) dark); [now left | now right]. }
    destruct (onClick_theme r _ Ht Hm) as (Ht' & Hs' & Hb').
    assert (Hflip : (if eqb (if Nat.even n then initial p else other) dark
                     then light else dark)
                    = if Nat.even (S n) then initial p else other).
    { rewrite Nat.even_succ, <- Nat.negb_even. unfold other.
      destruct (Nat.even n); cbn [negb]; [reflexivity|].
      destruct Hth as [-> | ->]; reflexivity. }
    cbv zeta in Ht', Hs', Hb'. rewrite Hflip in Ht', Hs', Hb'.
    split; [exact Ht'|]. split; [exact Hb'|].
    rewrite Hs'. apply lookup_insert_eq.
Qed.

Lemma clicks_alternate_witness :
  let q := Nat.iter 3 onClick (themeToggle first_visit) in
  is_theme (initial first_visit)
  /\ theme q = Some dark
  /\ btn_text q = Some sun
  /\ localStorage q !! key = Some dark.
Proof.
  intros q.
  assert (H : is_theme (initial first_visit)) by (left; reflexivity).
  split; [exact H|].
  exact (clicks_alternate first_visit 3 H).
Defined.

End ThemeFacts.

(** ** Project filter *)

Module FilterFacts.
Import Filter JSFacts.

Lemma toggle_active (force : bool) (cl : gset jsstring) :
  active ∈ toggle active force cl <-> force = true.
Proof.
  unfold toggle. destruct force.
  - split; [reflexivity | intros _].
    apply elem_of_union. left. now apply elem_of_singleton.
  - split; [|discriminate]. intros H. apply elem_of_difference in H.
    destruct H as [_ H]. exfalso. apply H. now apply elem_of_singleton.
Qed.

Lemma is_active_toggle (force : bool) (f : option jsstring)
    (cl : gset jsstring) :
  is_active {| filter := f; classList := toggle active force cl |} = force.
Proof.
  unfold is_active. cbn [classList]. destruct force.
  - apply bool_decide_eq_true. now apply toggle_active.
  - apply bool_decide_eq_false. rewrite toggle_active. discriminate.
Qed.

(** Of the controls rebuilt by index, the one at [k] alone is active. *)
Lemma active_imap (k : nat) (l : list button) :
  forall (f : nat -> button -> button) (o : nat),
    (forall j b, is_active (f j b) = Nat.eqb (o + j) k) ->
    length (List.filter is_active (imap f l))
    = if bool_decide (o <= k < o + length l) then 1 else 0.
Proof.
  induction l as [|x l IH]; intros f o Hf.
  - simpl. case_bool_decide; [lia | reflexivity].
  - assert (IH' := IH (f ∘ S) (S o)).
    cbn [imap List.filter]. rewrite Hf.
    destruct (Nat.eqb_spec (o + 0) k); cbn [length]; rewrite IH';
      try (intros j b; unfold compose; rewrite Hf; f_equal; lia);
      repeat case_bool_decide; lia.
Qed.

Lemma Forall2_by_tags (R : card -> card -> Prop) (g : card -> card)
    (l1 l2 : list card) :
  map tags l1 = map tags l2 ->
  (forall c1 c2, tags c1 = tags c2 -> R c1 (g c2)) ->
  Forall2 R l1 (map g l2).
Proof.
  intros Hmap HR. revert l2 Hmap.
  induction l1 as [|c1 l1 IH]; intros [|c2 l2] Hmap; simpl in *;
    try discriminate; constructor.
  - apply HR. congruence.
  - apply IH. congruence.
Qed.

Lemma imap_keeps_filter (g : nat -> bool) (l : list button) :
  map filter
    (imap (fun j b => {| filter := filter b;
                         classList := toggle active (g j) (classList b) |}) l)
  = map filter l.
Proof.
  revert g. induction l as [|b l IH]; intros g; [reflexivity|].
  cbn [imap map filter]. f_equal. apply (IH (g ∘ S)).
Qed.

Section WithLowerCase.

Variable toLowerCase : jsstring -> jsstring.

Lemma setActive_lookup (k j : nat) (p : page) :
  buttons (setActive k p) !! j
  = (fun b => {| filter := filter b;
                 classList := toggle active (Nat.eqb j k) (classList b) |})
    <$> buttons p !! j.
Proof. unfold setActive. cbn [buttons]. apply list_lookup_imap. Qed.

(** A selection changes neither the filter of a control nor the tags of a
    card. *)
Lemma onClick_keeps (k : nat) (p : page) :
  map filter (buttons (onClick toLowerCase k p)) = map filter (buttons p)
  /\ map tags (cards (onClick toLowerCase k p)) = map tags (cards p).
Proof.
  unfold onClick. destruct (buttons p !! k) as [btn|]; [|split; reflexivity].
  unfold applyFilter, setActive. cbn [buttons cards]. split.
  - apply (imap_keeps_filter (fun j => Nat.eqb j k)).
  - rewrite map_map. reflexivity.
Qed.

Lemma selections_keep (ks : list nat) (p : page) :
  map filter (buttons (selections toLowerCase ks p)) = map filter (buttons p)
  /\ map tags (cards (selections toLowerCase ks p)) = map tags (cards p).
Proof.
  revert p. induction ks as [|k ks IH]; intros p; [split; reflexivity|].
  destruct (IH (onClick toLowerCase k p)) as [Hb Hc].
  destruct (onClick_keeps k p) as [Hb' Hc'].
  split; simpl; fold (selections toLowerCase ks (onClick toLowerCase k p));
    congruence.
Qed.

Lemma lookup_of_map_filter (l1 l2 : list button) (k : nat) (b : button) :
  map filter l1 = map filter l2 -> l1 !! k = Some b ->
  exists b', l2 !! k = Some b' /\ filter b' = filter b.
Proof.
  revert l2 k. induction l1 as [|x l1 IH]; intros [|y l2] k Hmap Hk;
    simpl in *; try discriminate.
  destruct k as [|k]; simpl in *.
  - exists y. split; [reflexivity | congruence].
  - apply IH; congruence.
Qed.

(** A selection in terms of the tag list [applyFilter] computes. *)
Lemma selection_by_card_tags (p : page) (ks : list nat) (k : nat)
    (btn : button) :
  buttons p !! k = Some btn ->
  let x := normalize toLowerCase (filter btn) in
  let p' := selections toLowerCase (ks ++ [k]) p in
  Forall2
    (fun c c' =>
       tags c' = tags c
       /\ (x <> all ->
           (is_shown c' <-> In x (card_tags toLowerCase c))
           /\ (is_hidden c' <-> ~ In x (card_tags toLowerCase c)))
       /\ (x = all -> is_shown c'))
    (cards p) (cards p')
  /\ (forall j b, buttons p' !! j = Some b ->
                  (active ∈ classList b <-> j = k))
  /\ active_count p' = 1.
Proof.
  intros Hk x p'.
  set (q := selections toLowerCase ks p).
  assert (Hp' : p' = onClick toLowerCase k q).
  { unfold p', q, selections. now rewrite fold_left_app. }
  destruct (selections_keep ks p) as [Hb Hc]. fold q in Hb, Hc.
  destruct (lookup_of_map_filter _ _ _ _ (eq_sym Hb) Hk) as (b' & Hk' & Hf).
  assert (Hcl : onClick toLowerCase k q = applyFilter toLowerCase x (setActive k q)).
  { unfold onClick. rewrite Hk'. unfold x. now rewrite Hf. }
  rewrite Hp', Hcl. split; [|split].
  - unfold applyFilter. cbn [cards].
    apply Forall2_by_tags; [exact (eq_sym Hc)|].
    intros c1 c2 Ht. cbn [tags]. split; [congruence|].
    assert (Htags : card_tags toLowerCase c2 = card_tags toLowerCase c1).
    { unfold card_tags. now rewrite Ht. }
    rewrite Htags. unfold is_shown, is_hidden. cbn [display]. split.
    + intros Hx. apply eqb_neq in Hx. rewrite Hx. cbn [orb].
      rewrite <- includes_In.
      destruct (includes x (card_tags toLowerCase c1)); split; split;
        try discriminate; try congruence; try reflexivity.
    + intros ->. now rewrite eqb_refl.
  - intros j b Hj. unfold applyFilter in Hj. cbn [buttons] in Hj.
    rewrite setActive_lookup in Hj.
    destruct (buttons q !! j) as [b0|]; [|discriminate].
    injection Hj as <-. cbn [classList]. rewrite toggle_active.
    apply Nat.eqb_eq.
  - unfold active_count, applyFilter, setActive. cbn [buttons].
    rewrite (active_imap k _ _ 0).
    + apply lookup_lt_Some in Hk'. case_bool_decide; [reflexivity | lia].
    + intros j b. apply is_active_toggle.
Qed.

(** The tag list of a card whose tag attribute is the join of [parts]:
    each part lower-cased, then trimmed. *)
Lemma card_tags_of_parts (c : card) (parts : list jsstring) :
  parts <> [] -> Forall (fun part => ~ In 44%N part) parts ->
  or_else (tags c) [] = join 44 parts ->
  card_tags toLowerCase c = map (fun part => trim (toLowerCase part)) parts.
Proof.
  intros Hne Hall Hjoin. unfold card_tags.
  rewrite Hjoin, split_join by assumption.
  apply map_ext. intros part. unfold normalize. now rewrite or_else_self.
Qed.

(** C5: after any selections, selecting the control at index [k] leaves
    every card with its tags and either shown or hidden.  With [x] the
    control's filter value lower-cased and then trimmed, and a card's tag
    attribute read as comma-separated parts, the card is shown exactly when
    [x] is "all" or some part, lower-cased and then trimmed, equals [x].
    The selected control, and no other, carries the active marker. *)
Theorem filter_selection (p : page) (ks : list nat) (k : nat)
    (btn : button) :
  buttons p !! k = Some btn ->
  let x := trim (toLowerCase (or_else (filter btn) [])) in
  let p' := selections toLowerCase (ks ++ [k]) p in
  Forall2
    (fun c c' =>
       tags c' = tags c
       /\ (display c' = [] \/ display c' = js "none")
       /\ forall parts,
            parts <> [] ->
            Forall (fun part => ~ In 44%N part) parts ->
            or_else (tags c) [] = join 44 parts ->
            (display c' = []
             <-> x = js "all"
                 \/ exists part,
                      In part parts /\ trim (toLowerCase part) = x))
    (cards p) (cards p')
  /\ (forall j b, buttons p' !! j = Some b ->
                  (js "active" ∈ classList b <-> j = k))
  /\ active_count p' = 1.
Proof.
  intros Hk x p'.
  destruct (selection_by_card_tags p ks k btn Hk) as (Hcards & Hactive & Hone).
  split; [|split; [exact Hactive | exact Hone]].
  eapply Forall2_impl; [exact Hcards|].
  intros c c' (Htags & Hother & Hall). cbv beta in *.
  change (normalize toLowerCase (filter btn)) with x in Hother, Hall.
  unfold is_shown, is_hidden in *.
  split; [exact Htags|].
  destruct (eqb_spec x all) as [Hx|Hx].
  - specialize (Hall Hx). split; [now left|].
    intros parts _ _ _. split; [intros _; now left | intros _; exact Hall].
  - destruct (Hother Hx) as [Hshown Hhidden]. split.
    + destruct (includes x (card_tags toLowerCase c)) eqn:E.
      * left. apply Hshown. now apply includes_In.
      * right. apply Hhidden. intros Hin. apply includes_In in Hin.
        congruence.
    + intros parts Hne Hsep Hjoin. rewrite Hshown.
      rewrite (card_tags_of_parts c parts Hne Hsep Hjoin), in_map_iff.
      split.
      * intros (part & Heq & Hin). right. exists part. now split.
      * intros [Hx'|(part & Hin & Heq)]; [now destruct Hx|].
        exists part. now split.
Qed.

End WithLowerCase.

(** The theorem on the demo page: "design" is selected, then " Web"; the
    first card, tagged "web, api", is the one shown. *)
Lemma filter_selection_witness :
  let btn := {| filter := Some (js " Web"); classList := ∅ |} in
  let p' := selections lower_ascii ([2] ++ [1]) demo in
  buttons demo !! 1 = Some btn
  /\ trim (lower_ascii (or_else (filter btn) [])) = js "web"
  /\ Forall2
       (fun c c' =>
          tags c' = tags c
          /\ (display c' = [] \/ display c' = js "none")
          /\ forall parts,
               parts <> [] ->
               Forall (fun part => ~ In 44%N part) parts ->
               or_else (tags c) [] = join 44 parts ->
               (display c' = []
                <-> js "web" = js "all"
                    \/ exists part,
                         In part parts
                         /\ trim (lower_ascii part) = js "web"))
       (cards demo) (cards p')
  /\ (forall j b, buttons p' !! j = Some b ->
                  (js "active" ∈ classList b <-> j = 1))
  /\ active_count p' = 1.
Proof.
  intros btn p'.
  assert (H : buttons demo !! 1 = Some btn) by reflexivity.
  split; [exact H|]. split; [reflexivity|].
  exact (filter_selection lower_ascii demo [2] 1 btn H).
Defined.

(** The demo page after these two selections, and after the set-up. *)
Example demo_selection :
  map display (cards (selections lower_ascii [2; 1] demo))
  = [[]; js "none"; js "none"]
  /\ card_tags lower_ascii {| tags := Some (js "web, api"); display := [] |}
     = [js "web"; js "api"]
  /\ match projectFilter lower_ascii demo with
     | Normal q => map display (cards q) = [[]; []; []]
                   /\ listeners q = [0; 1; 2]
     | Throw _ _ => False
     end.
Proof. vm_compute. repeat split. Qed.

(** *** Activation, the class lists of the controls, the tags of a card *)

Lemma toggle_other (token : jsstring) (force : bool) (cl : gset jsstring) :
  token <> active -> (token ∈ toggle active force cl <-> token ∈ cl).
Proof.
  intros Hne. unfold toggle. destruct force.
  - rewrite elem_of_union, elem_of_singleton. tauto.
  - rewrite elem_of_difference, elem_of_singleton. tauto.
Qed.

Lemma split_length (sep : N) (s : jsstring) :
  length (split sep s)
  = S (length (List.filter (fun c => (c =? sep)%N) s)).
Proof.
  induction s as [|c s IH]; [reflexivity|]. cbn [split List.filter].
  destruct (c =? sep)%N; cbn [length]; [now rewrite IH|].
  destruct (split sep s); [discriminate | exact IH].
Qed.

Section Activation.

Variable toLowerCase : jsstring -> jsstring.

(** With controls and cards present, [projectFilter] puts one click
    listener on each control and shows every card; it changes no tag and no
    control, so no control is marked active by the default filter. *)
Theorem activation_shows_every_card (p : page) :
  buttons p <> [] -> cards p <> [] ->
  exists q,
    projectFilter toLowerCase p = Normal q
    /\ buttons q = buttons p
    /\ map tags (cards q) = map tags (cards p)
    /\ Forall is_shown (cards q)
    /\ listeners q = listeners p ++ seq 0 (length (buttons p)).
Proof.
  intros Hb Hc. unfold projectFilter.
  destruct (buttons p) as [|b bs] eqn:Eb; [congruence|].
  destruct (cards p) as [|c cs] eqn:Ec; [congruence|].
  cbn [length Nat.eqb orb]. eexists. split; [reflexivity|].
  unfold applyFilter. cbn [buttons cards listeners].
  split; [reflexivity|]. split; [|split; [|reflexivity]].
  - rewrite map_map. reflexivity.
  - apply List.Forall_forall. intros c' Hin. apply in_map_iff in Hin.
    destruct Hin as (c0 & <- & _). unfold is_shown. cbn [display].
    now rewrite eqb_refl.
Qed.

Lemma onClick_button (k j : nat) (p : page) (b : button) :
  buttons p !! j = Some b ->
  exists b',
    buttons (onClick toLowerCase k p) !! j = Some b'
    /\ filter b' = filter b
    /\ forall token, token <> active ->
                     (token ∈ classList b' <-> token ∈ classList b).
Proof.
  intros Hj. unfold onClick. destruct (buttons p !! k) as [btn|].
  - unfold applyFilter. cbn [buttons]. rewrite setActive_lookup, Hj.
    eexists. split; [reflexivity|]. cbn [filter classList].
    split; [reflexivity|]. intros token. apply toggle_other.
  - exists b. now repeat split.
Qed.

(** Selections change the class lists of the controls in the token "active"
    only: every control keeps its filter and all its other tokens. *)
Theorem selections_touch_only_active (ks : list nat) (p : page) (j : nat)
    (b : button) :
  buttons p !! j = Some b ->
  exists b',
    buttons (selections toLowerCase ks p) !! j = Some b'
    /\ filter b' = filter b
    /\ forall token, token <> active ->
                     (token ∈ classList b' <-> token ∈ classList b).
Proof.
  revert p b. induction ks as [|k ks IH]; intros p b Hj.
  - exists b. now repeat split.
  - destruct (onClick_button k j p b Hj) as (b1 & Hj1 & Hf1 & Hc1).
    destruct (IH _ _ Hj1) as (b2 & Hj2 & Hf2 & Hc2).
    exists b2. split; [exact Hj2|]. split; [congruence|].
    intros token Hne. rewrite (Hc2 token Hne). now apply Hc1.
Qed.

(** A card has one tag more than its tag list has commas (so one tag at
    least, also without a tag list), and no tag has white space at its
    ends. *)
Theorem card_tags_shape (c : card) :
  length (card_tags toLowerCase c)
  = S (length (List.filter (fun u => (u =? 44)%N) (or_else (tags c) [])))
  /\ Forall (fun t => trim t = t) (card_tags toLowerCase c).
Proof.
  unfold card_tags. split.
  - now rewrite length_map, split_length.
  - apply List.Forall_forall. intros t Hin. apply in_map_iff in Hin.
    destruct Hin as (s & <- & _). apply trim_idempotent.
Qed.

End Activation.

Lemma activation_shows_every_card_witness :
  buttons demo <> [] /\ cards demo <> []
  /\ exists q,
       projectFilter lower_ascii demo = Normal q
       /\ buttons q = buttons demo
       /\ map tags (cards q) = map tags (cards demo)
       /\ Forall is_shown (cards q)
       /\ listeners q = listeners demo ++ seq 0 (length (buttons demo)).
Proof.
  assert (H1 : buttons demo <> []) by discriminate.
  assert (H2 : cards demo <> []) by discriminate.
  split; [exact H1|]. split; [exact H2|].
  exact (activation_shows_every_card lower_ascii demo H1 H2).
Defined.

Lemma selections_touch_only_active_witness :
  let b := {| filter := Some (js "all"); classList := {[active]} |} in
  buttons demo !! 0 = Some b
  /\ exists b',
       buttons (selections lower_ascii [1; 2] demo) !! 0 = Some b'
       /\ filter b' = filter b
       /\ forall token, token <> active ->
                        (token ∈ classList b' <-> token ∈ classList b).
Proof.
  intros b.
  assert (H : buttons demo !! 0 = Some b) by reflexivity.
  split; [exact H|].
  exact (selections_touch_only_active lower_ascii [1; 2] demo 0 b H).
Defined.

End FilterFacts.

(** ** Copy e-mail to clipboard *)

Module CopyEmailFacts.
Import CopyEmail JSFacts.

Lemma strip_prefix_app (pat rest : jsstring) :
  strip_prefix pat (pat ++ rest) = Some rest.
Proof.
  induction pat as [|c pat IH]; simpl; [now destruct rest|].
  now rewrite N.eqb_refl.
Qed.

Lemma replace_prefix (pat rep rest : jsstring) :
  replace pat rep (pat ++ rest) = rep ++ rest.
Proof.
  destruct (pat ++ rest) as [|c r] eqn:E; simpl;
    rewrite <- E, strip_prefix_app; reflexivity.
Qed.

(** An explicit attribute value wins over the link target. *)
Lemma explicit_attribute_wins (v : jsstring) (link : option jsstring) :
  truthy v = true ->
  email {| data_copy_email := Some v; href := link |} = v.
Proof. intros H. unfold email, or_else. cbn [data_copy_email]. now rewrite H. Qed.

(** Without the attribute the address is what follows "mailto:", trimmed. *)
Lemma mail_link_address (address : jsstring) :
  truthy (js "mailto:" ++ address) = true ->
  email {| data_copy_email := None;
           href := Some (js "mailto:" ++ address) |}
  = trim address.
Proof.
  intros H. unfold email. cbn [data_copy_email href or_else].
  rewrite H. now rewrite (replace_prefix (js "mailto:") [] address).
Qed.

(** C6: an explicit attribute "a@b.com" resolves to "a@b.com" whatever the
    link target; without attribute the link "mailto:c@d.com" resolves to
    "c@d.com"; when the resolved address is empty the listener does nothing
    (the default action is not cancelled, nothing is written), and otherwise
    it cancels the default action and hands the address to the clipboard. *)
Theorem copy_email_resolution (link : option jsstring) (e : element) :
  email {| data_copy_email := Some (js "a@b.com"); href := link |}
  = js "a@b.com"
  /\ email {| data_copy_email := None; href := Some (js "mailto:c@d.com") |}
     = js "c@d.com"
  /\ (email e = [] -> onClick e = ignored)
  /\ (email e <> [] ->
      onClick e = {| defaultPrevented := true; written := Some (email e) |}).
Proof.
  split; [reflexivity|]. split; [reflexivity|].
  unfold onClick. split.
  - intros ->. reflexivity.
  - intros H. destruct (email e); [congruence | reflexivity].
Qed.

(** The theorem on an element with neither an attribute value nor a link
    target, and on a plain mail link. *)
Lemma copy_email_resolution_witness :
  let none := {| data_copy_email := Some []; href := None |} in
  let link := {| data_copy_email := None;
                 href := Some (js "mailto: c@d.com ") |} in
  email none = []
  /\ onClick none = ignored
  /\ email link <> []
  /\ onClick link
     = {| defaultPrevented := true; written := Some (js "c@d.com") |}.
Proof.
  intros none link.
  assert (H1 : email none = []) by reflexivity.
  assert (H2 : email link <> []) by (vm_compute; discriminate).
  split; [exact H1|].
  split; [exact (proj1 (proj2 (proj2 (copy_email_resolution None none))) H1)|].
  split; [exact H2|].
  exact (proj2 (proj2 (proj2 (copy_email_resolution None link))) H2).
Defined.

(** *** Blank addresses, the clipboard's answer, the way back to the link *)

Lemma email_without_attribute (e : element) :
  or_else (data_copy_email e) [] = [] ->
  email e = trim (replace (js "mailto:") [] (or_else (href e) [])).
Proof.
  unfold email. destruct (data_copy_email e) as [[|c r]|]; simpl;
    [reflexivity | discriminate | reflexivity].
Qed.

(** An element without attribute value whose href is missing, or is
    "mailto:" followed by nothing but white space, resolves to no address:
    the click is left to the browser, the listener returns normally whether
    or not there is a clipboard, and neither continuation runs. *)
Theorem blank_address_is_left_to_browser (e : element) (ws : jsstring) :
  or_else (data_copy_email e) [] = [] ->
  href e = None
  \/ (href e = Some (js "mailto:" ++ ws) /\ forallb is_ws ws = true) ->
  email e = []
  /\ onClick e = ignored
  /\ forall cb f, activate e cb f = Normal (ignored, f).
Proof.
  intros Hattr Hhref.
  assert (Hemail : email e = []).
  { rewrite (email_without_attribute e Hattr).
    destruct Hhref as [-> | [-> Hws]]; [reflexivity|].
    rewrite or_else_self, (replace_prefix (js "mailto:") [] ws).
    now apply trim_blank. }
  assert (Hclick : onClick e = ignored).
  { unfold onClick. now rewrite Hemail. }
  split; [exact Hemail|]. split; [exact Hclick|].
  intros cb f. unfold activate. now rewrite Hclick.
Qed.

Lemma blank_address_is_left_to_browser_witness :
  let e := {| data_copy_email := Some [];
              href := Some (js "mailto:" ++ js "  ") |} in
  or_else (data_copy_email e) [] = []
  /\ (href e = None
      \/ (href e = Some (js "mailto:" ++ js "  ")
          /\ forallb is_ws (js "  ") = true))
  /\ email e = []
  /\ onClick e = ignored
  /\ forall cb f, activate e cb f = Normal (ignored, f).
Proof.
  intros e.
  assert (H1 : or_else (data_copy_email e) [] = []) by reflexivity.
  assert (H2 : href e = None
               \/ (href e = Some (js "mailto:" ++ js "  ")
                   /\ forallb is_ws (js "  ") = true))
    by (right; split; reflexivity).
  split; [exact H1|]. split; [exact H2|].
  exact (blank_address_is_left_to_browser e (js "  ") H1 H2).
Defined.

Lemma onClick_resolved (e : element) :
  email e <> [] ->
  onClick e = {| defaultPrevented := true; written := Some (email e) |}.
Proof.
  intros H. unfold onClick. destruct (email e); [congruence | reflexivity].
Qed.

(** With an address resolved the click is cancelled in every case.  Where
    [navigator.clipboard] is missing the listener then throws a TypeError:
    nothing is handed over, no toast is shown, no navigation scheduled.
    Otherwise the address is handed to the clipboard; if the write succeeds
    the acknowledgment is shown for the default 1500 units and one
    navigation to "mailto:" plus the address is scheduled 400 units ahead;
    if it fails the failure message is shown and no navigation is
    scheduled. *)
Theorem clipboard_answer_followup (e : element) (f : followup) :
  email e <> [] ->
  let handed := {| defaultPrevented := true; written := Some (email e) |} in
  let ok := snd (settled (activate e Fulfils f)) in
  let ko := snd (settled (activate e Rejects f)) in
  activate e NoClipboard f
  = Throw "TypeError" ({| defaultPrevented := true; written := None |}, f)
  /\ activate e Fulfils f = Normal (handed, ok)
  /\ activate e Rejects f = Normal (handed, ko)
  /\ navigations ok
     = navigations f
       ++ [((Toast.now (toasts f) + 400)%Z, js "mailto:" ++ email e)]
  /\ Toast.message (toasts ok) = Some copied_msg
  /\ Toast.visible (toasts ok)
  /\ Toast.timers (toasts ok)
     = Toast.timers (toasts f) ++ [(Toast.now (toasts f) + 1500)%Z]
  /\ navigations ko = navigations f
  /\ Toast.message (toasts ko) = Some failed_msg
  /\ Toast.visible (toasts ko).
Proof.
  intros Hemail handed ok ko.
  assert (Hclick : onClick e = handed) by now apply onClick_resolved.
  unfold ok, ko, activate. rewrite Hclick. cbn [written settled fst snd].
  unfold onCopied, onCopyFailed. cbn [navigations toasts].
  repeat split; try reflexivity;
    unfold Toast.visible; apply ToastFacts.toast_opacity.
Qed.

Lemma clipboard_answer_followup_witness :
  let e := {| data_copy_email := Some (js "a@b.com"); href := None |} in
  let f := {| toasts := Toast.fresh; navigations := [] |} in
  email e <> []
  /\ activate e NoClipboard f
     = Throw "TypeError" ({| defaultPrevented := true; written := None |}, f)
  /\ navigations (snd (settled (activate e Fulfils f)))
     = [(400%Z, js "mailto:a@b.com")]
  /\ navigations (snd (settled (activate e Rejects f))) = [].
Proof.
  intros e f.
  assert (H : email e <> []) by (vm_compute; discriminate).
  destruct (clipboard_answer_followup e f H)
    as (Hno & _ & _ & Hnav & _ & _ & _ & Hko & _).
  split; [exact H|]. split; [exact Hno|]. split; [exact Hnav | exact Hko].
Defined.

(** For a plain mail link whose address has no white space around it, the
    address copied is the one after "mailto:" and the navigation scheduled
    after a successful copy leads to the link's own href. *)
Theorem mail_link_navigates_to_itself (address : jsstring) (f : followup) :
  address <> [] ->
  (forall c, head address = Some c -> is_ws c = false) ->
  (forall c, last address = Some c -> is_ws c = false) ->
  let e := {| data_copy_email := None;
              href := Some (js "mailto:" ++ address) |} in
  written (onClick e) = Some address
  /\ (exists f', activate e Fulfils f = Normal (onClick e, f'))
  /\ map snd (navigations (snd (settled (activate e Fulfils f))))
     = map snd (navigations f) ++ [js "mailto:" ++ address]
  /\ href e = Some (js "mailto:" ++ address).
Proof.
  intros Hne Hh Hl e.
  assert (Hemail : email e = address).
  { unfold e. rewrite mail_link_address by reflexivity.
    now apply trim_fixed. }
  assert (Hclick : onClick e = {| defaultPrevented := true;
                                  written := Some address |}).
  { rewrite onClick_resolved by congruence. now rewrite Hemail. }
  split; [now rewrite Hclick|].
  unfold activate. rewrite Hclick. cbn [written settled snd].
  split; [eexists; reflexivity|]. split; [|reflexivity].
  unfold onCopied. cbn [navigations]. rewrite map_app. reflexivity.
Qed.

Lemma mail_link_navigates_to_itself_witness :
  let e := {| data_copy_email := None;
              href := Some (js "mailto:" ++ js "c@d.com") |} in
  let f := {| toasts := Toast.fresh; navigations := [] |} in
  js "c@d.com" <> []
  /\ written (onClick e) = Some (js "c@d.com")
  /\ (exists f', activate e Fulfils f = Normal (onClick e, f'))
  /\ map snd (navigations (snd (settled (activate e Fulfils f))))
     = map snd (navigations f) ++ [js "mailto:" ++ js "c@d.com"]
  /\ href e = Some (js "mailto:" ++ js "c@d.com").
Proof.
  intros e f.
  assert (H1 : js "c@d.com" <> []) by (vm_compute; discriminate).
  assert (H2 : forall c, head (js "c@d.com") = Some c -> is_ws c = false)
    by (intros c [= <-]; reflexivity).
  assert (H3 : forall c, last (js "c@d.com") = Some c -> is_ws c = false)
    by (intros c [= <-]; reflexivity).
  split; [exact H1|].
  exact (mail_link_navigates_to_itself (js "c@d.com") f H1 H2 H3).
Defined.

End CopyEmailFacts.

(** ** Smooth scroll *)

Module SmoothScrollFacts.
Import SmoothScroll JSFacts.

Section Handler.

Variable querySelector : jsstring -> lookup.

(** What the listener does follows what the document answers: on a href
    longer than "#", when the document finds an element the click cancels
    the default action, scrolls the element into view and pushes the href,
    which becomes the visible fragment; when it finds none, or rejects the
    selector, the default action stays uncancelled and neither the history
    nor the scroll position is touched. *)
Lemma hash_link_click (targetId : jsstring) (w : effects) :
  1 < length targetId ->
  match querySelector targetId with
  | Found target =>
      exists w',
        onClick querySelector (Some targetId) w = Normal w'
        /\ defaultPrevented w' = true
        /\ last (history w') = Some targetId
        /\ history w' = history w ++ [targetId]
        /\ scrolledIntoView w' = scrolledIntoView w ++ [target]
  | _ =>
      let w' := outcome (onClick querySelector (Some targetId) w) in
      defaultPrevented w' = defaultPrevented w
      /\ history w' = history w
      /\ scrolledIntoView w' = scrolledIntoView w
  end.
Proof.
  intros Hlen. apply Nat.ltb_lt in Hlen. unfold onClick. rewrite Hlen.
  destruct (querySelector targetId) as [target| |].
  - eexists. split; [reflexivity|]. cbn. repeat split.
    apply last_snoc.
  - repeat split.
  - repeat split.
Qed.

(** C10: a click on a link whose href is exactly "#" does nothing at all:
    the call returns normally in the state it started from, so no selector
    is handed to the document, the default action is not cancelled and no
    history entry is pushed, whatever the document would answer. *)
Theorem bare_hash_click_is_ignored (w : effects) :
  length (js "#") = 1
  /\ onClick querySelector (Some (js "#")) w = Normal w
  /\ queried (outcome (onClick querySelector (Some (js "#")) w)) = queried w
  /\ defaultPrevented (outcome (onClick querySelector (Some (js "#")) w))
     = defaultPrevented w
  /\ history (outcome (onClick querySelector (Some (js "#")) w)) = history w.
Proof. repeat split. Qed.

(** Any longer href reaches the document. *)
Lemma longer_href_is_looked_up (targetId : jsstring) (w : effects) :
  1 < length targetId ->
  queried (outcome (onClick querySelector (Some targetId) w))
  = queried w ++ [targetId].
Proof.
  intros Hlen. apply Nat.ltb_lt in Hlen. unfold onClick. rewrite Hlen.
  destruct (querySelector targetId); reflexivity.
Qed.

End Handler.

(** *** Documents and the targets of hash links *)

Lemma index_of_lookup (name : jsstring) (ids : list jsstring) (k : nat) :
  index_of name ids = Some k -> ids !! k = Some name.
Proof.
  revert k. induction ids as [|id ids IH]; intros k; simpl; [discriminate|].
  destruct (eqb_spec name id) as [->|Hne].
  - now intros [= <-].
  - destruct (index_of name ids) as [j|]; simpl; [|discriminate].
    intros [= <-]. now apply IH.
Qed.

Lemma index_of_In (name : jsstring) (ids : list jsstring) :
  In name ids <-> is_Some (index_of name ids).
Proof.
  induction ids as [|id ids IH]; simpl.
  - split; [intros [] | intros [k Hk]; discriminate].
  - destruct (eqb_spec name id) as [->|Hne].
    + split; [eauto | now left].
    + destruct (index_of name ids) as [j|]; simpl.
      * split; [eauto | intros _; right; apply IH; eauto].
      * split; [|intros [k Hk]; discriminate].
        intros [H|H]; [congruence | now apply IH].
Qed.

(** On a link to a fragment that is an identifier the listener does what
    the link asks for: if an element with that id exists, the click is
    intercepted for the first such element; if none exists, it is left to
    the browser. *)
Lemma identifier_fragment_click (ids : list jsstring)
    (other : jsstring -> lookup) (name : jsstring) (w : effects) :
  is_ident name = true ->
  (In name ids ->
   exists k,
     ids !! k = Some name
     /\ onClick (by_id ids other) (Some (35%N :: name)) w
        = Normal {| defaultPrevented := true;
                    scrolledIntoView := scrolledIntoView w ++ [k];
                    history := history w ++ [35%N :: name];
                    queried := queried w ++ [35%N :: name] |})
  /\ (~ In name ids ->
      onClick (by_id ids other) (Some (35%N :: name)) w
      = Normal {| defaultPrevented := defaultPrevented w;
                  scrolledIntoView := scrolledIntoView w;
                  history := history w;
                  queried := queried w ++ [35%N :: name] |}).
Proof.
  intros Hid. destruct name as [|c rest]; [discriminate|].
  assert (Hdigit : is_digit c = false).
  { cbn [is_ident] in Hid. apply andb_true_iff in Hid. destruct Hid as [Hs _].
    unfold is_name_start, is_digit in *.
    destruct (N.leb_spec 48 c), (N.leb_spec c 57); try reflexivity.
    cbn [andb]. exfalso.
    destruct (N.leb_spec 65 c); [lia|].
    destruct (N.leb_spec 97 c); [lia|].
    destruct (N.eqb_spec c 95); [lia|].
    destruct (N.leb_spec 128 c); [lia|].
    cbn in Hs. discriminate. }
  unfold onClick, by_id. cbn [length Nat.ltb Nat.leb].
  rewrite Hdigit, Hid. split.
  - intros Hin. apply index_of_In in Hin. destruct Hin as [k Hk].
    rewrite Hk. exists k. split; [now apply index_of_lookup | reflexivity].
  - intros Hnot. destruct (index_of (c :: rest) ids) as [k|] eqn:Hk;
      [|reflexivity].
    exfalso. apply Hnot, index_of_In. rewrite Hk. eauto.
Qed.

(** On a link to a fragment that starts with a digit the document rejects
    the href as a selector: the listener throws right after the lookup,
    whether an element with that id exists or not. *)
Lemma digit_fragment_throws (ids : list jsstring)
    (other : jsstring -> lookup) (d : N) (rest : jsstring) (w : effects) :
  is_digit d = true ->
  onClick (by_id ids other) (Some (35%N :: d :: rest)) w
  = Throw "SyntaxError"
          {| defaultPrevented := defaultPrevented w;
             scrolledIntoView := scrolledIntoView w;
             history := history w;
             queried := queried w ++ [35%N :: d :: rest] |}.
Proof.
  intros Hd. unfold onClick, by_id. cbn [length Nat.ltb Nat.leb].
  now rewrite Hd.
Qed.

(** C7 (the code against the claim): in a document with the sections
    "about" and "1", the target of the link "#1" exists, yet the click on it
    is not intercepted: the document rejects "#1" as a selector, the
    listener throws, the default action is not cancelled and no fragment is
    pushed.  The link "#about" of the same document is intercepted as the
    claim says. *)
Theorem numeric_id_link_is_not_intercepted (other : jsstring -> lookup)
    (w : effects) :
  let ids := [js "about"; js "1"] in
  ids !! 1 = Some (js "1")
  /\ onClick (by_id ids other) (Some (js "#1")) w
     = Throw "SyntaxError"
             {| defaultPrevented := defaultPrevented w;
                scrolledIntoView := scrolledIntoView w;
                history := history w;
                queried := queried w ++ [js "#1"] |}
  /\ onClick (by_id ids other) (Some (js "#about")) w
     = Normal {| defaultPrevented := true;
                 scrolledIntoView := scrolledIntoView w ++ [0];
                 history := history w ++ [js "#about"];
                 queried := queried w ++ [js "#about"] |}.
Proof.
  intros ids. split; [reflexivity|]. split.
  - apply (digit_fragment_throws ids other 49%N [] w). reflexivity.
  - reflexivity.
Qed.

(** On the same kind of document a link to a missing section is left to
    the browser, and the bare "#" never reaches the document, which would
    reject it. *)
Example missing_target_not_intercepted :
  let document := by_id [js "about"; js "projects"] (fun _ => NotFound) in
  onClick document (Some (js "#contact")) untouched
  = Normal {| defaultPrevented := false; scrolledIntoView := [];
              history := []; queried := [js "#contact"] |}
  /\ document (js "#") = SyntaxError
  /\ onClick document (Some (js "#")) untouched = Normal untouched.
Proof. vm_compute. repeat split. Qed.

(** *** When the listener throws *)

Section Errors.

Variable querySelector : jsstring -> lookup.

(** The listener throws in two cases only.  It throws a TypeError, in the
    state it started from, exactly when the href attribute is gone.  It
    throws a SyntaxError exactly when the href is longer than one unit and
    the document rejects it as a selector; by then the selector has been
    handed to the document and nothing else has happened.  So whenever it
    throws, the default action is not cancelled, nothing is scrolled and
    the history is left alone. *)
Theorem click_throws_exactly_when (href : option jsstring) (w : effects) :
  (onClick querySelector href w = Throw "TypeError" w <-> href = None)
  /\ (forall targetId,
        href = Some targetId ->
        (onClick querySelector href w
         = Throw "SyntaxError"
                 {| defaultPrevented := defaultPrevented w;
                    scrolledIntoView := scrolledIntoView w;
                    history := history w;
                    queried := queried w ++ [targetId] |}
         <-> 1 < length targetId /\ querySelector targetId = SyntaxError))
  /\ (forall err w',
        onClick querySelector href w = Throw err w' ->
        (err = "TypeError"%string /\ href = None /\ w' = w)
        \/ (err = "SyntaxError"%string
            /\ exists targetId,
                 href = Some targetId
                 /\ 1 < length targetId
                 /\ querySelector targetId = SyntaxError
                 /\ w' = {| defaultPrevented := defaultPrevented w;
                            scrolledIntoView := scrolledIntoView w;
                            history := history w;
                            queried := queried w ++ [targetId] |})).
Proof.
  unfold onClick. destruct href as [targetId|].
  - split; [|split].
    + split; [|discriminate].
      destruct (Nat.ltb 1 (length targetId));
        [destruct (querySelector targetId)|]; discriminate.
    + intros t [= <-]. destruct (Nat.ltb_spec 1 (length targetId)) as [Hlt|Hge].
      * destruct (querySelector targetId) eqn:E; split;
          try discriminate; try (intros [_ H]; discriminate);
          [intros _; now split | reflexivity].
      * split; [discriminate | intros [H _]; lia].
    + intros err w'. destruct (Nat.ltb_spec 1 (length targetId)) as [Hlt|Hge];
        [|discriminate].
      destruct (querySelector targetId) eqn:E; try discriminate.
      intros [= <- <-]. right. split; [reflexivity|].
      exists targetId. now repeat split.
  - split; [|split].
    + now split.
    + intros t H. discriminate.
    + intros err w' [= <- <-]. left. now repeat split.
Qed.

End Errors.

(** The theorem on a link "#1" of a document that has a section "1". *)
Lemma click_throws_exactly_when_witness :
  let document := by_id [js "1"] (fun _ => NotFound) in
  Some (js "#1") = Some (js "#1")
  /\ 1 < length (js "#1")
  /\ document (js "#1") = SyntaxError
  /\ onClick document (Some (js "#1")) untouched
     = Throw "SyntaxError"
             {| defaultPrevented := defaultPrevented untouched;
                scrolledIntoView := scrolledIntoView untouched;
                history := history untouched;
                queried := queried untouched ++ [js "#1"] |}.
Proof.
  intros document.
  assert (H0 : Some (js "#1") = Some (js "#1")) by reflexivity.
  assert (H1 : 1 < length (js "#1")) by (vm_compute; lia).
  assert (H2 : document (js "#1") = SyntaxError) by reflexivity.
  split; [exact H0|]. split; [exact H1|]. split; [exact H2|].
  exact (proj2 (proj1 (proj2 (click_throws_exactly_when
                                document (Some (js "#1")) untouched))
                      (js "#1") H0)
               (conj H1 H2)).
Defined.

End SmoothScrollFacts.

(** ** Reveal-on-scroll *)

Module RevealFacts.
Import Reveal.

Lemma classList_add_same (el : nat) (token : jsstring) (p : page) :
  token ∈ classList el (classList_add el token p).
Proof.
  unfold classList at 1, classList_add. cbn [classes].
  rewrite lookup_insert_eq. cbn. apply elem_of_union. left.
  now apply elem_of_singleton.
Qed.

Lemma classList_add_keeps (el el' : nat) (token token' : jsstring)
    (p : page) :
  token ∈ classList el p -> token ∈ classList el (classList_add el' token' p).
Proof.
  intros H. unfold classList at 1, classList_add. cbn [classes].
  destruct (decide (el' = el)) as [->|Hne].
  - rewrite lookup_insert_eq. cbn. apply elem_of_union. now right.
  - rewrite lookup_insert_ne by assumption. exact H.
Qed.

Lemma handle_keeps (el : nat) (token : jsstring) (p : page) (e : entry) :
  token ∈ classList el p -> token ∈ classList el (handle p e).
Proof.
  intros H. unfold handle. destruct (isIntersecting e); [|exact H].
  unfold unobserve, classList. cbn [classes].
  now apply classList_add_keeps.
Qed.

Lemma handle_unobserved (el : nat) (p : page) (e : entry) :
  el ∉ observed p -> el ∉ observed (handle p e).
Proof.
  intros H. unfold handle. destruct (isIntersecting e); [|exact H].
  unfold unobserve, classList_add. cbn [observed].
  intros Hin. apply elem_of_difference in Hin. now destruct Hin.
Qed.

Lemma handle_intersecting (p : page) (e : entry) :
  isIntersecting e = true ->
  reveal_in ∈ classList (target e) (handle p e)
  /\ target e ∉ observed (handle p e).
Proof.
  intros H. unfold handle. rewrite H. split.
  - unfold unobserve, classList. cbn [classes]. apply classList_add_same.
  - unfold unobserve. cbn [observed]. intros Hin.
    apply elem_of_difference in Hin. destruct Hin as [_ Hin].
    apply Hin. now apply elem_of_singleton.
Qed.

(** The class and the unwatched state survive any further entries. *)
Lemma callback_keeps (el : nat) (entries : list entry) (p : page) :
  reveal_in ∈ classList el p /\ el ∉ observed p ->
  reveal_in ∈ classList el (callback entries p)
  /\ el ∉ observed (callback entries p).
Proof.
  unfold callback. revert p.
  induction entries as [|e entries IH]; intros p [Hc Ho]; [now split|].
  simpl. apply IH. split; [now apply handle_keeps | now apply handle_unobserved].
Qed.

Lemma callback_reveals (entries : list entry) (e : entry) (p : page) :
  In e entries -> isIntersecting e = true ->
  reveal_in ∈ classList (target e) (callback entries p)
  /\ target e ∉ observed (callback entries p).
Proof.
  intros Hin He. apply in_split in Hin. destruct Hin as (l1 & l2 & ->).
  unfold callback. rewrite fold_left_app. simpl.
  apply (callback_keeps (target e) l2).
  now apply handle_intersecting.
Qed.

Lemma deliver_keeps (el : nat) (batches : list (list entry)) (p : page) :
  reveal_in ∈ classList el p /\ el ∉ observed p ->
  reveal_in ∈ classList el (deliver batches p)
  /\ el ∉ observed (deliver batches p).
Proof.
  revert p. induction batches as [|b batches IH]; intros p H; [exact H|].
  simpl. apply IH. now apply callback_keeps.
Qed.

(** C8: once the observer, set up with the 15% threshold, reports an
    element as intersecting, the element carries the class "reveal-in" and
    is no longer watched, and both stay so through every later batch of
    entries, intersecting or not. *)
Theorem reveal_is_one_shot (revealTargets : list nat) (p : page)
    (before after : list (list entry)) (batch : list entry) (e : entry) :
  In e batch -> isIntersecting e = true ->
  let q := deliver (before ++ batch :: after) (reveal true revealTargets p) in
  reveal_in ∈ classList (target e) q
  /\ target e ∉ observed q.
Proof.
  intros Hin He q. unfold q, deliver. rewrite fold_left_app. simpl.
  apply deliver_keeps. now apply callback_reveals.
Qed.

(** The theorem on two targets: the first is reported outside the
    viewport, then both inside, then the first outside again. *)
Lemma reveal_is_one_shot_witness :
  let e := {| target := 0; isIntersecting := true |} in
  let batch := [ {| target := 1; isIntersecting := true |}; e ] in
  let q := deliver ([[ {| target := 0; isIntersecting := false |} ]]
                    ++ batch
                    :: [[ {| target := 0; isIntersecting := false |} ]])
                   (reveal true [0; 1] blank) in
  In e batch
  /\ isIntersecting e = true
  /\ reveal_in ∈ classList (target e) q
  /\ target e ∉ observed q.
Proof.
  intros e batch q.
  assert (H1 : In e batch) by (right; left; reflexivity).
  assert (H2 : isIntersecting e = true) by reflexivity.
  split; [exact H1|]. split; [exact H2|].
  exact (reveal_is_one_shot [0; 1] blank
           [[ {| target := 0; isIntersecting := false |} ]]
           [[ {| target := 0; isIntersecting := false |} ]] batch e H1 H2).
Defined.

(** The set-up gives the observer its threshold, and every target the
    hidden state and a place in the watched set. *)
Lemma reveal_sets_up (revealTargets : list nat) (p : page) (el : nat) :
  In el revealTargets ->
  let q := reveal true revealTargets p in
  observer q = Some (15 # 100)
  /\ js "reveal" ∈ classList el q
  /\ el ∈ observed q.
Proof.
  intros Hin q. unfold q, reveal.
  destruct revealTargets as [|t ts]; [destruct Hin|].
  cbn [length Nat.ltb Nat.leb andb].
  set (step := fun p el => observe el (classList_add el (js "reveal") p)).
  set (p0 := {| classes := classes p; observed := observed p;
                observer := Some threshold |}).
  assert (Hobs : forall l r, observer (fold_left step l r) = observer r).
  { induction l as [|x l IH]; intros r; [reflexivity|]. simpl. now rewrite IH. }
  assert (Hkeep : forall l r,
             js "reveal" ∈ classList el r /\ el ∈ observed r ->
             js "reveal" ∈ classList el (fold_left step l r)
             /\ el ∈ observed (fold_left step l r)).
  { induction l as [|x l IH]; intros r [Hc Ho]; [now split|].
    simpl. apply IH. unfold step, observe. cbn [observed]. split.
    - unfold classList. cbn [classes]. now apply classList_add_keeps.
    - apply elem_of_union. now right. }
  split; [now rewrite Hobs|].
  apply in_split in Hin. destruct Hin as (l1 & l2 & ->).
  rewrite fold_left_app. simpl. apply Hkeep.
  unfold step at 1 3, observe. cbn [observed]. split.
  - unfold classList. cbn [classes]. apply classList_add_same.
  - apply elem_of_union. left. now apply elem_of_singleton.
Qed.

(** *** Elements never reported, and what the callback never undoes *)

Lemma reveal_sets_up_witness :
  In 1 [0; 1]
  /\ observer (reveal true [0; 1] blank) = Some (15 # 100)
  /\ js "reveal" ∈ classList 1 (reveal true [0; 1] blank)
  /\ 1 ∈ observed (reveal true [0; 1] blank).
Proof.
  assert (H : In 1 [0; 1]) by (right; left; reflexivity).
  split; [exact H|]. exact (reveal_sets_up [0; 1] blank 1 H).
Defined.

Lemma handle_other (el : nat) (p : page) (e : entry) :
  (target e = el -> isIntersecting e = false) ->
  classList el (handle p e) = classList el p
  /\ (el ∈ observed (handle p e) <-> el ∈ observed p).
Proof.
  intros H. unfold handle. destruct (isIntersecting e) eqn:E; [|now split].
  assert (Hne : target e <> el) by (intros Heq; specialize (H Heq); congruence).
  unfold unobserve, classList_add, classList. cbn [classes observed]. split.
  - now rewrite lookup_insert_ne.
  - rewrite elem_of_difference, elem_of_singleton. split; [tauto|].
    intros Hin. split; [exact Hin | congruence].
Qed.

Lemma callback_other (el : nat) (entries : list entry) (p : page) :
  (forall e, In e entries -> target e = el -> isIntersecting e = false) ->
  classList el (callback entries p) = classList el p
  /\ (el ∈ observed (callback entries p) <-> el ∈ observed p).
Proof.
  unfold callback. revert p.
  induction entries as [|e entries IH]; intros p H; [now split|].
  simpl. destruct (IH (handle p e)) as [Hc Ho].
  { intros e' Hin. apply H. now right. }
  destruct (handle_other el p e) as [Hc' Ho']; [apply H; now left|].
  split; [congruence | tauto].
Qed.

(** An element that no entry reports as intersecting keeps its class list
    as it is and stays watched (or unwatched) as it was, whatever is
    reported about other elements. *)
Theorem unreported_element_untouched (batches : list (list entry))
    (p : page) (el : nat) :
  (forall batch e, In batch batches -> In e batch -> target e = el ->
                   isIntersecting e = false) ->
  classList el (deliver batches p) = classList el p
  /\ (el ∈ observed (deliver batches p) <-> el ∈ observed p).
Proof.
  unfold deliver. revert p.
  induction batches as [|b batches IH]; intros p H; [now split|].
  simpl. destruct (IH (callback b p)) as [Hc Ho].
  { intros batch e Hb. apply H. now right. }
  destruct (callback_other el b p) as [Hc' Ho'].
  { intros e. apply H. now left. }
  split; [congruence | tauto].
Qed.

Lemma unreported_element_untouched_witness :
  let batches := [[ {| target := 0; isIntersecting := true |};
                    {| target := 1; isIntersecting := false |} ]] in
  let p := reveal true [0; 1] blank in
  (forall batch e, In batch batches -> In e batch -> target e = 1 ->
                   isIntersecting e = false)
  /\ classList 1 (deliver batches p) = classList 1 p
  /\ (1 ∈ observed (deliver batches p) <-> 1 ∈ observed p).
Proof.
  intros batches p.
  assert (H : forall batch e, In batch batches -> In e batch ->
                              target e = 1 -> isIntersecting e = false).
  { intros batch e [<-|[]] [<-|[<-|[]]]; [discriminate | reflexivity]. }
  split; [exact H|]. exact (unreported_element_untouched batches p 1 H).
Defined.

Lemma handle_observed (el : nat) (p : page) (e : entry) :
  el ∈ observed (handle p e) -> el ∈ observed p.
Proof.
  unfold handle. destruct (isIntersecting e); [|auto].
  unfold unobserve. cbn [observed]. rewrite elem_of_difference. tauto.
Qed.

(** The callback only ever adds classes and only ever stops watching: a
    token on an element stays there through every batch (the hidden-state
    class "reveal" included, so a revealed element carries both), and an
    element watched afterwards was watched before. *)
Theorem callback_never_undoes (batches : list (list entry)) (p : page)
    (el : nat) :
  (forall token, token ∈ classList el p ->
                 token ∈ classList el (deliver batches p))
  /\ (el ∈ observed (deliver batches p) -> el ∈ observed p).
Proof.
  unfold deliver. revert p.
  induction batches as [|b batches IH]; intros p; [now split|].
  simpl. destruct (IH (callback b p)) as [Hc Ho].
  assert (Hb : (forall token, token ∈ classList el p ->
                              token ∈ classList el (callback b p))
               /\ (el ∈ observed (callback b p) -> el ∈ observed p)).
  { unfold callback. clear. revert p.
    induction b as [|e b IHb]; intros p; [now split|].
    simpl. destruct (IHb (handle p e)) as [Hc Ho]. split.
    - intros token Hin. apply Hc. now apply handle_keeps.
    - intros Hin. eapply handle_observed. apply Ho. exact Hin. }
  destruct Hb as [Hc' Ho']. split.
  - intros token Hin. apply Hc. now apply Hc'.
  - intros Hin. apply Ho'. now apply Ho.
Qed.

Lemma callback_never_undoes_witness :
  let batches := [[ {| target := 0; isIntersecting := true |} ]] in
  let p := reveal true [0] blank in
  js "reveal" ∈ classList 0 p
  /\ js "reveal" ∈ classList 0 (deliver batches p).
Proof.
  intros batches p.
  assert (H : js "reveal" ∈ classList 0 p).
  { change (js "reveal"
            ∈ classList 0
                (classList_add 0 (js "reveal")
                   {| classes := ∅; observed := ∅;
                      observer := Some threshold |})).
    apply classList_add_same. }
  split; [exact H|].
  exact (proj1 (callback_never_undoes batches p 0) (js "reveal") H).
Defined.

End RevealFacts.

(** ** Degradation of the optional features *)

Module DegradationFacts.

(** C9: each optional feature whose elements are absent returns normally
    and leaves its page slice as it found it: no listener or timer is
    registered and nothing is changed. *)
Theorem absent_elements_make_noops :
  (forall p, Typing.el p = None -> Typing.typingEffect p = Normal p)
  /\ (forall toLowerCase p,
        Filter.buttons p = [] \/ Filter.cards p = [] ->
        Filter.projectFilter toLowerCase p = Normal p)
  /\ (forall p, Lightbox.imgs p = [] -> Lightbox.lightbox p = Normal p)
  /\ (forall p, CopyEmail.el p = None -> CopyEmail.copyEmail p = Normal p).
Proof.
  split; [|split; [|split]].
  - intros p H. unfold Typing.typingEffect. now rewrite H.
  - intros lower p [H|H]; unfold Filter.projectFilter; rewrite H; cbn.
    + reflexivity.
    + now rewrite orb_true_r.
  - intros p H. unfold Lightbox.lightbox. now rewrite H.
  - intros p H. unfold CopyEmail.copyEmail. now rewrite H.
Qed.

(** The theorem on a page with no subtitle, filter controls without cards,
    no opt-in image and no mail link. *)
Lemma absent_elements_make_noops_witness :
  let typing := Typing.idle None in
  let filters := {| Filter.buttons := Filter.buttons Filter.demo;
                    Filter.cards := []; Filter.listeners := [] |} in
  let images := {| Lightbox.imgs := []; Lightbox.view := None;
                   Lightbox.listeners := [] |} in
  let mail := {| CopyEmail.el := None; CopyEmail.listening := false |} in
  Typing.typingEffect typing = Normal typing
  /\ Filter.projectFilter lower_ascii filters = Normal filters
  /\ Lightbox.lightbox images = Normal images
  /\ CopyEmail.copyEmail mail = Normal mail.
Proof.
  intros typing filters images mail.
  destruct absent_elements_make_noops as (H1 & H2 & H3 & H4).
  split; [exact (H1 typing eq_refl)|].
  split; [exact (H2 lower_ascii filters (or_intror eq_refl))|].
  split; [exact (H3 images eq_refl) | exact (H4 mail eq_refl)].
Defined.

(** With their elements present the same features do register behaviour. *)
Lemma present_elements_activate :
  (forall p children,
      Typing.el p = Some children ->
      exists q, Typing.typingEffect p = Normal q
                /\ is_Some (Typing.vars q)
                /\ Typing.timeouts q + Typing.intervals q
                   = S (Typing.timeouts p + Typing.intervals p))
  /\ (forall toLowerCase p,
        Filter.buttons p <> [] -> Filter.cards p <> [] ->
        exists q, Filter.projectFilter toLowerCase p = Normal q
                  /\ Filter.listeners q
                     = Filter.listeners p
                       ++ seq 0 (length (Filter.buttons p)))
  /\ (forall p,
        Lightbox.imgs p <> [] ->
        exists q, Lightbox.lightbox p = Normal q
                  /\ is_Some (Lightbox.view q)
                  /\ length (Lightbox.listeners q)
                     = length (Lightbox.listeners p)
                       + 2 + length (Lightbox.imgs p))
  /\ (forall p e,
        CopyEmail.el p = Some e ->
        exists q, CopyEmail.copyEmail p = Normal q
                  /\ CopyEmail.listening q = true).
Proof.
  split; [|split; [|split]].
  - intros p children H. unfold Typing.typingEffect. rewrite H.
    eexists. split; [reflexivity|]. unfold Typing.typeNext, Typing.prepare.
    cbn [Typing.el Typing.vars Typing.full Typing.i].
    destruct (Nat.ltb 0 _); cbn; split; eauto; lia.
  - intros lower p Hb Hc. unfold Filter.projectFilter.
    destruct (Filter.buttons p) as [|b bs] eqn:Eb; [congruence|].
    destruct (Filter.cards p) as [|c cs] eqn:Ec; [congruence|].
    cbn [length Nat.eqb orb]. eexists. split; [reflexivity|].
    unfold Filter.applyFilter. cbn [Filter.listeners]. reflexivity.
  - intros p H. unfold Lightbox.lightbox.
    destruct (Lightbox.imgs p) as [|im ims] eqn:E; [congruence|].
    cbn [length Nat.eqb]. eexists. split; [reflexivity|].
    cbn [Lightbox.view Lightbox.listeners]. split; [eauto|].
    rewrite !length_app, length_map, length_seq. cbn [length]. lia.
  - intros p e H. unfold CopyEmail.copyEmail. rewrite H.
    eexists. split; reflexivity.
Qed.

End DegradationFacts.

(** ** Modal image viewer *)

Module LightboxFacts.
Import Lightbox JSFacts.

Lemma step_imgs (p : page) (e : event) : imgs (step p e) = imgs p.
Proof.
  destruct e as [k|b|key]; cbn [step].
  - unfold onImageClick. now destruct (imgs p !! k).
  - unfold onOverlayClick. now destruct b.
  - unfold onKeydown. now destruct (eqb key (js "Escape")).
Qed.

Lemma run_imgs (events : list event) (p : page) :
  imgs (run events p) = imgs p.
Proof.
  revert p. induction events as [|e events IH]; intros p; [reflexivity|].
  simpl. fold (run events (step p e)). now rewrite IH, step_imgs.
Qed.

Lemma step_view (p : page) (e : event) :
  is_Some (view p) -> is_Some (view (step p e)).
Proof.
  intros [v Hv]. destruct e as [k|b|key]; cbn [step].
  - unfold onImageClick. destruct (imgs p !! k); [|eauto].
    unfold with_view. cbn [view]. rewrite Hv. eauto.
  - unfold onOverlayClick. destruct b; [|eauto].
    unfold with_view. cbn [view]. rewrite Hv. eauto.
  - unfold onKeydown. destruct (eqb key (js "Escape")); [|eauto].
    unfold with_view. cbn [view]. rewrite Hv. eauto.
Qed.

Lemma run_view (events : list event) (p : page) :
  is_Some (view p) -> is_Some (view (run events p)).
Proof.
  revert p. induction events as [|e events IH]; intros p H; [exact H|].
  simpl. apply IH. now apply step_view.
Qed.

Lemma run_snoc (events : list event) (e : event) (p : page) :
  run (events ++ [e]) p = step (run events p) e.
Proof. unfold run. now rewrite fold_left_app. Qed.

(** With opt-in images present, [lightbox] creates the viewer hidden and
    empty, gives every image the zoom-in cursor without touching its source
    or text, and registers the overlay's click listener, the document's
    keydown listener and one click listener for each image, in this
    order. *)
Theorem lightbox_activation (p : page) :
  imgs p <> [] ->
  exists q,
    lightbox p = Normal q
    /\ map src (imgs q) = map src (imgs p)
    /\ map alt (imgs q) = map alt (imgs p)
    /\ Forall (fun im => cursor im = Some (js "zoom-in")) (imgs q)
    /\ view q = Some {| overlay_display := js "none"; big_src := [];
                        big_alt := [] |}
    /\ listeners q
       = listeners p ++ [(Overlay, "click"); (Document, "keydown")]
         ++ map (fun k => (Image k, "click")) (seq 0 (length (imgs p))).
Proof.
  intros H. unfold lightbox.
  destruct (imgs p) as [|im ims] eqn:E; [congruence|].
  cbn [length Nat.eqb]. eexists. split; [reflexivity|].
  cbn [imgs view listeners]. rewrite !map_map. cbn [src alt].
  repeat split.
  apply List.Forall_forall. intros im' Hin. apply in_map_iff in Hin.
  now destruct Hin as (im0 & <- & _).
Qed.

Lemma lightbox_activation_witness :
  let p := {| imgs := [ {| src := js "a.png"; alt := js "A";
                           cursor := None |} ];
              view := None; listeners := [] |} in
  imgs p <> []
  /\ exists q,
       lightbox p = Normal q
       /\ map src (imgs q) = map src (imgs p)
       /\ map alt (imgs q) = map alt (imgs p)
       /\ Forall (fun im => cursor im = Some (js "zoom-in")) (imgs q)
       /\ view q = Some {| overlay_display := js "none"; big_src := [];
                           big_alt := [] |}
       /\ listeners q
          = listeners p ++ [(Overlay, "click"); (Document, "keydown")]
            ++ map (fun k => (Image k, "click")) (seq 0 (length (imgs p))).
Proof.
  intros p.
  assert (H : imgs p <> []) by discriminate.
  split; [exact H|]. exact (lightbox_activation p H).
Defined.

(** Whatever happened before, a click on an opt-in image leaves the overlay
    visible with exactly that image's source and text: a new opening
    replaces the former content. *)
Theorem last_image_click_decides (events : list event) (p : page)
    (k : nat) (im : img) :
  is_Some (view p) -> imgs p !! k = Some im ->
  view (run (events ++ [ImageClick k]) p)
  = Some {| overlay_display := js "flex"; big_src := src im;
            big_alt := alt im |}.
Proof.
  intros Hv Hk. rewrite run_snoc. cbn [step]. unfold onImageClick.
  rewrite run_imgs, Hk. unfold with_view. cbn [view].
  destruct (run_view events p Hv) as [v ->].
  unfold open_. now rewrite or_else_self.
Qed.

Lemma last_image_click_decides_witness :
  let im := {| src := js "a.png"; alt := js "A";
               cursor := Some (js "zoom-in") |} in
  let p := {| imgs := [im];
              view := Some {| overlay_display := js "none"; big_src := [];
                              big_alt := [] |};
              listeners := [] |} in
  is_Some (view p)
  /\ imgs p !! 0 = Some im
  /\ view (run ([Keydown (js "Escape"); ImageClick 7] ++ [ImageClick 0]) p)
     = Some {| overlay_display := js "flex"; big_src := js "a.png";
               big_alt := js "A" |}.
Proof.
  intros im p.
  assert (H1 : is_Some (view p)) by (eexists; reflexivity).
  assert (H2 : imgs p !! 0 = Some im) by reflexivity.
  split; [exact H1|]. split; [exact H2|].
  exact (last_image_click_decides
           [Keydown (js "Escape"); ImageClick 7] p 0 im H1 H2).
Defined.

(** The overlay is closed by the Escape key and by a click on the overlay
    itself, which keep the image in place; a click inside the overlay on
    anything else, and every other key, leave the viewer as it is. *)
Theorem closing_events (p : page) (v : viewer) (e : event) :
  view p = Some v ->
  match e with
  | ImageClick _ => True
  | OverlayClick on_overlay =>
      if on_overlay
      then view (step p e)
           = Some {| overlay_display := js "none"; big_src := big_src v;
                     big_alt := big_alt v |}
      else step p e = p
  | Keydown key =>
      (key = js "Escape" ->
       view (step p e)
       = Some {| overlay_display := js "none"; big_src := big_src v;
                 big_alt := big_alt v |})
      /\ (key <> js "Escape" -> step p e = p)
  end.
Proof.
  intros Hv. destruct e as [k|b|key]; [exact I| |]; cbn [step].
  - unfold onOverlayClick. destruct b; [|reflexivity].
    unfold with_view. cbn [view]. now rewrite Hv.
  - unfold onKeydown. split.
    + intros ->. rewrite eqb_refl. unfold with_view. cbn [view].
      now rewrite Hv.
    + intros Hne. apply eqb_neq in Hne. now rewrite Hne.
Qed.

Lemma closing_events_witness :
  let v := {| overlay_display := js "flex"; big_src := js "a.png";
              big_alt := js "A" |} in
  let p := {| imgs := []; view := Some v; listeners := [] |} in
  view p = Some v
  /\ (js "Escape" = js "Escape" ->
      view (step p (Keydown (js "Escape")))
      = Some {| overlay_display := js "none"; big_src := js "a.png";
                big_alt := js "A" |})
  /\ (js "Escape" <> js "Escape" -> step p (Keydown (js "Escape")) = p).
Proof.
  intros v p.
  assert (H : view p = Some v) by reflexivity.
  split; [exact H|].
  exact (closing_events p v (Keydown (js "Escape")) H).
Defined.

(** From the viewer as [lightbox] creates it, through any events: the
    overlay is either hidden or visible, and whenever it is visible it shows
    the source and text of one of the page's opt-in images. *)
Theorem overlay_shows_a_page_image (events : list event) (p : page)
    (v0 : viewer) :
  view p = Some v0 -> overlay_display v0 = js "none" ->
  exists v,
    view (run events p) = Some v
    /\ (overlay_display v = js "none"
        \/ overlay_display v = js "flex"
           /\ exists k im, imgs p !! k = Some im
                           /\ big_src v = src im /\ big_alt v = alt im).
Proof.
  intros Hv Hd.
  induction events as [|e events IH] using rev_ind.
  - exists v0. split; [exact Hv | now left].
  - destruct IH as (v & Hrun & Hinv). rewrite run_snoc.
    destruct e as [k|b|key]; cbn [step].
    + unfold onImageClick. rewrite run_imgs.
      destruct (imgs p !! k) as [im|] eqn:Ek.
      * unfold with_view. cbn [view]. rewrite Hrun. eexists.
        split; [reflexivity|]. right. unfold open_.
        cbn [overlay_display big_src big_alt]. split; [reflexivity|].
        exists k, im. rewrite or_else_self. now repeat split.
      * exists v. now split.
    + unfold onOverlayClick. destruct b; [|exists v; now split].
      unfold with_view. cbn [view]. rewrite Hrun. eexists.
      split; [reflexivity | now left].
    + unfold onKeydown. destruct (eqb key (js "Escape"));
        [|exists v; now split].
      unfold with_view. cbn [view]. rewrite Hrun. eexists.
      split; [reflexivity | now left].
Qed.

Lemma overlay_shows_a_page_image_witness :
  let im := {| src := js "a.png"; alt := js "A";
               cursor := Some (js "zoom-in") |} in
  let v0 := {| overlay_display := js "none"; big_src := [];
               big_alt := [] |} in
  let p := {| imgs := [im]; view := Some v0; listeners := [] |} in
  view p = Some v0
  /\ overlay_display v0 = js "none"
  /\ exists v,
       view (run [ImageClick 0; OverlayClick false] p) = Some v
       /\ (overlay_display v = js "none"
           \/ overlay_display v = js "flex"
              /\ exists k im', imgs p !! k = Some im'
                               /\ big_src v = src im'
                               /\ big_alt v = alt im').
Proof.
  intros im v0 p.
  assert (H1 : view p = Some v0) by reflexivity.
  assert (H2 : overlay_display v0 = js "none") by reflexivity.
  split; [exact H1|]. split; [exact H2|].
  exact (overlay_shows_a_page_image [ImageClick 0; OverlayClick false]
           p v0 H1 H2).
Defined.

End LightboxFacts.

(** ** Injected style sheet and lazy loading *)

Module PassesFacts.
Import RevealStyle LazyLoad JSFacts.

Lemma includes_snoc (x : jsstring) (l : list jsstring) :
  includes x (l ++ [x]) = true.
Proof.
  unfold includes. rewrite existsb_app. cbn [existsb].
  now rewrite eqb_refl, orb_true_r.
Qed.

(** [injectRevealCSS] leaves a document that has the style element alone
    and appends the element to one that has not; either way the element is
    there afterwards, and a second run changes nothing. *)
Theorem injectRevealCSS_once (ids : list jsstring) :
  includes styleId (injectRevealCSS ids) = true
  /\ injectRevealCSS (injectRevealCSS ids) = injectRevealCSS ids
  /\ (includes styleId ids = true -> injectRevealCSS ids = ids)
  /\ (includes styleId ids = false -> injectRevealCSS ids = ids ++ [styleId]).
Proof.
  unfold injectRevealCSS. destruct (includes styleId ids) eqn:E.
  - rewrite E. repeat split; try assumption; discriminate.
  - rewrite includes_snoc. repeat split; try reflexivity; discriminate.
Qed.

Lemma injectRevealCSS_once_witness :
  includes styleId [js "toast"] = false
  /\ injectRevealCSS [js "toast"] = [js "toast"] ++ [styleId].
Proof.
  assert (H : includes styleId [js "toast"] = false) by reflexivity.
  split; [exact H|].
  exact (proj2 (proj2 (proj2 (injectRevealCSS_once [js "toast"]))) H).
Defined.

Lemma lazy_spec (attrs : gmap string jsstring) :
  (is_Some (attrs !! "loading") -> lazy attrs = attrs)
  /\ (attrs !! "loading" = None ->
      lazy attrs !! "loading" = Some (js "lazy")
      /\ lazy attrs !! "decoding" = Some (js "async")
      /\ forall k, k <> "loading"%string -> k <> "decoding"%string ->
                   lazy attrs !! k = attrs !! k).
Proof.
  unfold lazy. split.
  - intros [v ->]. reflexivity.
  - intros ->. split; [|split].
    + rewrite lookup_insert_ne by discriminate. apply lookup_insert_eq.
    + apply lookup_insert_eq.
    + intros k H1 H2. now rewrite !lookup_insert_ne by congruence.
Qed.

Lemma lazy_has_loading (attrs : gmap string jsstring) :
  is_Some (lazy attrs !! "loading").
Proof.
  destruct (attrs !! "loading") as [v|] eqn:E.
  - rewrite (proj1 (lazy_spec attrs)); rewrite E; eauto.
  - destruct (proj2 (lazy_spec attrs) E) as [-> _]. eauto.
Qed.

(** The lazy-loading pass: afterwards every image has a loading attribute;
    an image that had one keeps all its attributes, its decoding included;
    an image that had none gets loading "lazy" and decoding "async" (an
    explicit decoding is overwritten) and keeps every other attribute; a
    second pass changes nothing. *)
Theorem lazyLoading_pass (imgs : list (gmap string jsstring)) :
  Forall (fun attrs => is_Some (attrs !! "loading")) (lazyLoading imgs)
  /\ lazyLoading (lazyLoading imgs) = lazyLoading imgs
  /\ Forall2
       (fun before after =>
          (is_Some (before !! "loading") -> after = before)
          /\ (before !! "loading" = None ->
              after !! "loading" = Some (js "lazy")
              /\ after !! "decoding" = Some (js "async")
              /\ forall k, k <> "loading"%string -> k <> "decoding"%string ->
                           after !! k = before !! k))
       imgs (lazyLoading imgs).
Proof.
  unfold lazyLoading. split; [|split].
  - apply List.Forall_forall. intros a Hin. apply in_map_iff in Hin.
    destruct Hin as (a0 & <- & _). apply lazy_has_loading.
  - rewrite map_map. apply map_ext. intros a.
    apply (proj1 (lazy_spec (lazy a))), lazy_has_loading.
  - induction imgs as [|a imgs IH]; constructor; [apply lazy_spec | exact IH].
Qed.

Lemma lazyLoading_pass_witness :
  let eager : gmap string jsstring :=
    {[ "loading"%string := js "eager"; "src"%string := js "a.png" ]} in
  let plain : gmap string jsstring :=
    {[ "decoding"%string := js "sync"; "src"%string := js "b.png" ]} in
  is_Some (eager !! "loading")
  /\ plain !! "loading" = None
  /\ lazy eager = eager
  /\ lazy plain !! "loading" = Some (js "lazy")
  /\ lazy plain !! "decoding" = Some (js "async").
Proof.
  intros eager plain.
  assert (H1 : is_Some (eager !! "loading")) by (eexists; reflexivity).
  assert (H2 : plain !! "loading" = None) by reflexivity.
  pose proof (lazyLoading_pass [eager; plain]) as (_ & _ & H).
  inversion H as [|? ? ? ? [He _] H']; subst.
  inversion H' as [|? ? ? ? [_ Hp] _]; subst.
  destruct (Hp H2) as (Hl & Hd & _).
  split; [exact H1|]. split; [exact H2|].
  split; [exact (He H1)|]. split; [exact Hl | exact Hd].
Defined.

End PassesFacts.
